(** * Adaptive frame upsampling (upsampling/utils/upsampler.py)

    A shallow embedding of the [Upsampler] class: the resolution-keyed cache
    of warp modules, the device-move helper, the adaptive interpolation
    schedule of [_upsample_adaptive], the per-pair assembly and the
    per-sequence index and timestamp bookkeeping of [upsample_sequence], and
    the conversion of frames to 8-bit images.

    Number model.  Timestamps are Python floats, IEEE doubles: they are
    rationals here and every operation on them is rounded to the nearest
    double ([Float64.fl]), so that what is proved of their order holds of the
    numbers the program computes.  Tensor entries are 32-bit floats in the
    source; here they are exact rationals ([Q]) and their rounding is not
    modelled: statements about tensors are equalities of values, and no order
    or bound is derived from them that rounding could break.  Two float
    functions that leave the rationals are taken as parameters of the
    development ([sqrtf] for [pow(.5)], [sigmoid] for [torch.sigmoid]).  The
    one division whose divisor is computed from data, the final blend,
    produces a value of [fval], which adds the IEEE results of a division by
    zero to the rationals.

    External code.  The two UNets, the [backWarp] module, [np.argsort], the
    constants [mean] and [std], and [cv2.cvtColor] are not part of the file;
    they are section variables.  The estimators are assumed to return tensors
    of the shape the source expects: torch's shape errors are not modelled
    (zips stop at the shorter operand).  What is modelled as a failure is
    the reduction of the flow magnitudes over an empty batch or over a flow
    field without pixels, which raises. *)

From Stdlib Require Import QArith Qround Qminmax Qabs Qpower ZArith List Lia Lqa.
From Stdlib Require Import Sorted Permutation.
From Stdlib Require Ascii DecimalString DecimalNat Floats.
From stdpp Require Import gmap list sorting strings.
Import ListNotations.

(** ** Numbers *)

Module Num.
Local Open Scope Q_scope.

(** A float after a division: a finite value, or what IEEE division by zero
    gives ([x/0] is [+inf], [-inf] or [nan] by the sign of [x]). *)
Inductive fval : Type :=
  | Fin (q : Q)
  | PInf
  | NInf
  | NaN.

(** Tensor division [x / y], entry by entry. *)
Definition fdiv (x y : Q) : fval :=
  if Qeq_bool y 0 then
    match x ?= 0 with
    | Eq => NaN
    | Gt => PInf
    | Lt => NInf
    end
  else Fin (x / y).

(** [v - c] for a finite constant [c]. *)
Definition fsub (v : fval) (c : Q) : fval :=
  match v with
  | Fin q => Fin (q - c)
  | other => other
  end.

(** [c * v] for a constant [c > 0] (the source only scales by 255). *)
Definition fscale (c : Q) (v : fval) : fval :=
  match v with
  | Fin q => Fin (c * q)
  | other => other
  end.

(** [np.clip(v, lo, hi)] is [minimum(maximum(v, lo), hi)]; nan stays nan. *)
Definition fclip (lo hi : Q) (v : fval) : fval :=
  match v with
  | Fin q => Fin (Qmin (Qmax q lo) hi)
  | PInf => Fin hi
  | NInf => Fin lo
  | NaN => NaN
  end.

(** Truncation toward zero, the C conversion of a float to an integer. *)
Definition Qtrunc (q : Q) : Z :=
  if Qle_bool 0 q then Qfloor q else Qceiling q.

Definition is_finite (v : fval) : bool :=
  match v with
  | Fin _ => true
  | _ => false
  end.

End Num.
Export Num.

(** ** Double-precision arithmetic

    Python's [float] is an IEEE 754 binary64 number and each operation on
    floats returns the double nearest to the exact result, the one with an
    even last digit when two are equally near.  [fl] is that rounding on the
    rationals, subnormal numbers included.  Overflow to infinity is not
    modelled: [fl] is the IEEE rounding for results of magnitude below
    [2^1024], and the theorems that depend on it bound their inputs
    accordingly ([finite_double], [max_double]). *)

Module Float64.
Local Open Scope Q_scope.

(** [2^e] for an integer exponent. *)
Definition pow2 (e : Z) : Q := 2 ^ e.

(** The binade of a positive rational: the [e] with [2^e <= x < 2^(e+1)]. *)
Definition ilog2 (x : Q) : Z :=
  let e0 := (Z.log2 (Qnum x) - Z.log2 (Zpos (Qden x)))%Z in
  if Qle_bool (pow2 e0) x then e0 else (e0 - 1)%Z.

(** The nearest integer, the even one of the two when [x] is half way. *)
Definition rne (x : Q) : Z :=
  let f := Qfloor x in
  match Qcompare (x - inject_Z f) (1 # 2) with
  | Lt => f
  | Gt => (f + 1)%Z
  | Eq => if Z.even f then f else (f + 1)%Z
  end.

(** The exponent of the last place of a double near [x]: 53 significant
    bits, and no spacing finer than [2^-1074] (the subnormal numbers). *)
Definition qexp (x : Q) : Z := Z.max (ilog2 (Qabs x) - 52) (-1074).

(** Rounding to the nearest multiple of [2^q]. *)
Definition round_at (q : Z) (x : Q) : Q :=
  inject_Z (rne (x / pow2 q)) * pow2 q.

(** The double nearest to [x], the result of one arithmetic operation whose
    exact result is [x]. *)
Definition fl (x : Q) : Q := round_at (qexp x) x.

(** The rationals that are doubles are the fixed points of the rounding. *)
Definition is_double (x : Q) : Prop := fl x == x.

Lemma pow2_pos (e : Z) : 0 < pow2 e.
Proof. apply Qpower_0_lt. reflexivity. Qed.

Lemma pow2_add (a b : Z) : pow2 (a + b) == pow2 a * pow2 b.
Proof. apply Qpower_plus. discriminate. Qed.

Lemma pow2_le (a b : Z) : (a <= b)%Z -> pow2 a <= pow2 b.
Proof. intros H. apply Qpower_le_compat_l; [exact H | discriminate]. Qed.

Lemma pow2_lt (a b : Z) : (a < b)%Z -> pow2 a < pow2 b.
Proof. intros H. apply Qpower_lt_compat_l; [exact H | reflexivity]. Qed.

Lemma pow2_lt_inv (a b : Z) : pow2 a < pow2 b -> (a < b)%Z.
Proof. intros H. apply (Qpower_lt_compat_l_inv 2); [exact H | reflexivity]. Qed.

Lemma pow2_Z (k : Z) : (0 <= k)%Z -> pow2 k == inject_Z (2 ^ k).
Proof. intros H. unfold pow2. by rewrite (Zpower_Qpower 2 k H). Qed.

(** A power of two is on every finer grid. *)
Lemma pow2_grid (q e : Z) :
  (q <= e)%Z -> pow2 e == inject_Z (2 ^ (e - q)) * pow2 q.
Proof.
  intros H. rewrite <- pow2_Z by lia. rewrite <- pow2_add.
  by replace (e - q + q)%Z with e by lia.
Qed.

(** *** Rounding to an integer *)

Lemma rne_comp (x y : Q) : x == y -> rne x = rne y.
Proof.
  intros H. unfold rne. rewrite (Qfloor_comp _ _ H).
  by rewrite (Qcompare_comp (x - inject_Z (Qfloor y)) (y - inject_Z (Qfloor y))
                (ltac:(by rewrite H)) (1 # 2) (1 # 2) (ltac:(reflexivity))).
Qed.

Lemma rne_floor (x : Q) : rne x = Qfloor x \/ rne x = (Qfloor x + 1)%Z.
Proof.
  unfold rne. destruct (Qcompare _ _); [| by left | by right].
  destruct (Z.even _); [by left | by right].
Qed.

Lemma rne_Z (n : Z) : rne (inject_Z n) = n.
Proof.
  unfold rne. rewrite Qfloor_Z.
  destruct (Qcompare_spec (inject_Z n - inject_Z n) (1 # 2)) as [H|H|H];
    [lra | done | lra].
Qed.

Lemma inject_Z_succ (n : Z) : inject_Z (n + 1) == inject_Z n + 1.
Proof. by rewrite inject_Z_plus. Qed.

(** The rounded integer is within one half of the argument. *)
Lemma rne_err (x : Q) :
  x - (1 # 2) <= inject_Z (rne x) /\ inject_Z (rne x) <= x + (1 # 2).
Proof.
  pose proof (Qfloor_le x) as Hlo. pose proof (Qlt_floor x) as Hhi.
  rewrite inject_Z_succ in Hhi. unfold rne.
  destruct (Qcompare_spec (x - inject_Z (Qfloor x)) (1 # 2)) as [H|H|H].
  - destruct (Z.even _); [| rewrite inject_Z_succ]; lra.
  - lra.
  - rewrite inject_Z_succ. lra.
Qed.

Lemma rne_mono (x y : Q) : x <= y -> (rne x <= rne y)%Z.
Proof.
  intros Hxy. pose proof (Qfloor_resp_le x y Hxy) as Hf.
  destruct (Z.eq_dec (Qfloor x) (Qfloor y)) as [E|E].
  - unfold rne. rewrite E.
    destruct (Qcompare_spec (x - inject_Z (Qfloor y)) (1 # 2)) as [Hx|Hx|Hx];
      destruct (Qcompare_spec (y - inject_Z (Qfloor y)) (1 # 2)) as [Hy|Hy|Hy];
      try lra; try lia; destruct (Z.even (Qfloor y)); lia.
  - destruct (rne_floor x) as [-> | ->], (rne_floor y) as [-> | ->]; lia.
Qed.

(** *** Rounding to a grid of spacing [2^q] *)

Lemma round_at_mono (q : Z) (x y : Q) :
  x <= y -> round_at q x <= round_at q y.
Proof.
  intros H. unfold round_at. pose proof (pow2_pos q) as Hq.
  apply Qmult_le_compat_r; [| lra].
  rewrite <- Zle_Qle. apply rne_mono.
  apply Qmult_le_compat_r; [exact H |].
  apply Qlt_le_weak, Qinv_lt_0_compat, Hq.
Qed.

Lemma round_at_grid (q n : Z) :
  round_at q (inject_Z n * pow2 q) == inject_Z n * pow2 q.
Proof.
  unfold round_at. pose proof (pow2_pos q) as Hq.
  rewrite (rne_comp _ (inject_Z n)); [by rewrite rne_Z |].
  field. lra.
Qed.

Lemma round_at_le (q n : Z) (x : Q) :
  x <= inject_Z n * pow2 q -> round_at q x <= inject_Z n * pow2 q.
Proof.
  intros H. rewrite <- (round_at_grid q n). by apply round_at_mono.
Qed.

Lemma round_at_ge (q n : Z) (x : Q) :
  inject_Z n * pow2 q <= x -> inject_Z n * pow2 q <= round_at q x.
Proof.
  intros H. rewrite <- (round_at_grid q n). by apply round_at_mono.
Qed.

Lemma round_at_err (q : Z) (x : Q) :
  x - (1 # 2) * pow2 q <= round_at q x
  /\ round_at q x <= x + (1 # 2) * pow2 q.
Proof.
  unfold round_at. pose proof (pow2_pos q) as Hq.
  destruct (rne_err (x / pow2 q)) as [Hlo Hhi].
  assert (E : x == x / pow2 q * pow2 q) by (field; lra).
  revert Hlo Hhi E. generalize (x / pow2 q). intros z.
  generalize (inject_Z (rne z)). intros r Hlo Hhi E.
  assert (H1 : 0 <= (r - (z - (1 # 2))) * pow2 q)
    by (apply Qmult_le_0_compat; lra).
  assert (H2 : 0 <= (z + (1 # 2) - r) * pow2 q)
    by (apply Qmult_le_0_compat; lra).
  split; nra.
Qed.

(** *** The binade of a positive rational *)

Lemma Qdiv_lt_cross (n d A B : Q) :
  0 < d -> 0 < B -> n * B < A * d -> n / d < A / B.
Proof.
  intros Hd HB H. apply Qlt_shift_div_l; [done |].
  assert (E : n / d * B == n * B / d) by (field; lra).
  rewrite E. by apply Qlt_shift_div_r.
Qed.

Lemma Qdiv_le_cross (n d A B : Q) :
  0 < d -> 0 < B -> n * B <= A * d -> n / d <= A / B.
Proof.
  intros Hd HB H. apply Qle_shift_div_l; [done |].
  assert (E : n / d * B == n * B / d) by (field; lra).
  rewrite E. by apply Qle_shift_div_r.
Qed.

Lemma ilog2_spec (x : Q) :
  0 < x -> pow2 (ilog2 x) <= x /\ x < pow2 (ilog2 x + 1).
Proof.
  destruct x as [n d]. intros Hx.
  assert (Hn : (0 < n)%Z) by (unfold Qlt in Hx; simpl in Hx; lia).
  pose proof (Z.log2_spec n Hn) as [Hn1 Hn2].
  pose proof (Z.log2_spec (Z.pos d) (Pos2Z.is_pos d)) as [Hd1 Hd2].
  pose proof (Z.log2_nonneg n) as Ha. pose proof (Z.log2_nonneg (Z.pos d)) as Hb.
  unfold ilog2. cbn [Qnum Qden].
  set (a := Z.log2 n) in *. set (b := Z.log2 (Z.pos d)) in *.
  assert (HA : (0 < 2 ^ a)%Z) by (apply Z.pow_pos_nonneg; lia).
  assert (HB : (0 < 2 ^ b)%Z) by (apply Z.pow_pos_nonneg; lia).
  assert (Ex : n # d == inject_Z n / inject_Z (Z.pos d)) by apply Qmake_Qdiv.
  assert (Hup : n # d < pow2 (a - b + 1)).
  { replace (a - b + 1)%Z with (Z.succ a - b)%Z by lia.
    unfold pow2 at 1. rewrite Qpower_minus by discriminate.
    fold (pow2 (Z.succ a)). fold (pow2 b). rewrite !pow2_Z by lia. rewrite Ex.
    apply Qdiv_lt_cross.
    - change 0 with (inject_Z 0). rewrite <- Zlt_Qlt. lia.
    - change 0 with (inject_Z 0). rewrite <- Zlt_Qlt. lia.
    - rewrite <- !inject_Z_mult, <- Zlt_Qlt. nia. }
  assert (Hlo : pow2 (a - b - 1) <= n # d).
  { replace (a - b - 1)%Z with (a - Z.succ b)%Z by lia.
    unfold pow2 at 1. rewrite Qpower_minus by discriminate.
    fold (pow2 a). fold (pow2 (Z.succ b)). rewrite !pow2_Z by lia. rewrite Ex.
    apply Qdiv_le_cross.
    - change 0 with (inject_Z 0). rewrite <- Zlt_Qlt. lia.
    - change 0 with (inject_Z 0). rewrite <- Zlt_Qlt. lia.
    - rewrite <- !inject_Z_mult, <- Zle_Qle. nia. }
  destruct (Qle_bool (pow2 (a - b)) (n # d)) eqn:E.
  - apply Qle_bool_iff in E. by split.
  - split; [exact Hlo |].
    replace (a - b - 1 + 1)%Z with (a - b)%Z by lia.
    destruct (Qlt_le_dec (n # d) (pow2 (a - b))) as [H|H]; [done |].
    apply Qle_bool_iff in H. congruence.
Qed.

Lemma ilog2_unique (x : Q) (e : Z) :
  pow2 e <= x -> x < pow2 (e + 1) -> ilog2 x = e.
Proof.
  intros Hlo Hhi.
  assert (Hx : 0 < x) by (pose proof (pow2_pos e); lra).
  destruct (ilog2_spec x Hx) as [Hlo' Hhi'].
  assert (H1 : (ilog2 x < e + 1)%Z) by (apply pow2_lt_inv; lra).
  assert (H2 : (e < ilog2 x + 1)%Z) by (apply pow2_lt_inv; lra).
  lia.
Qed.

Lemma ilog2_mono (x y : Q) : 0 < x -> x <= y -> (ilog2 x <= ilog2 y)%Z.
Proof.
  intros Hx Hxy.
  destruct (ilog2_spec x Hx) as [Hlo _].
  destruct (ilog2_spec y ltac:(lra)) as [_ Hhi].
  assert (H : (ilog2 x < ilog2 y + 1)%Z) by (apply pow2_lt_inv; lra).
  lia.
Qed.

Lemma ilog2_comp (x y : Q) : 0 < x -> x == y -> ilog2 x = ilog2 y.
Proof.
  intros Hx E. symmetry.
  destruct (ilog2_spec x Hx) as [Hlo Hhi].
  apply ilog2_unique; lra.
Qed.

(** *** Rounding to the nearest double *)

Lemma round_at_zero (q : Z) (x : Q) : x == 0 -> round_at q x == 0.
Proof.
  intros H. unfold round_at.
  rewrite (rne_comp _ (inject_Z 0)); [rewrite rne_Z; ring |].
  rewrite H. pose proof (pow2_pos q). field. lra.
Qed.

Lemma round_at_comp (q : Z) (x y : Q) : x == y -> round_at q x == round_at q y.
Proof.
  intros H. unfold round_at. rewrite (rne_comp _ (y / pow2 q)); [done |].
  by rewrite H.
Qed.

Lemma round_at_le_pow2 (q e : Z) (x : Q) :
  (q <= e)%Z -> x <= pow2 e -> round_at q x <= pow2 e.
Proof.
  intros Hq H. rewrite (pow2_grid q e Hq) in *. by apply round_at_le.
Qed.

Lemma round_at_ge_pow2 (q e : Z) (x : Q) :
  (q <= e)%Z -> pow2 e <= x -> pow2 e <= round_at q x.
Proof.
  intros Hq H. rewrite (pow2_grid q e Hq) in *. by apply round_at_ge.
Qed.

Lemma npow2_grid (q e : Z) :
  (q <= e)%Z -> - pow2 e == inject_Z (- 2 ^ (e - q)) * pow2 q.
Proof.
  intros H. rewrite inject_Z_opp, (pow2_grid q e H). ring.
Qed.

Lemma round_at_le_npow2 (q e : Z) (x : Q) :
  (q <= e)%Z -> x <= - pow2 e -> round_at q x <= - pow2 e.
Proof.
  intros Hq H. rewrite (npow2_grid q e Hq) in *. by apply round_at_le.
Qed.

Lemma round_at_ge_npow2 (q e : Z) (x : Q) :
  (q <= e)%Z -> - pow2 e <= x -> - pow2 e <= round_at q x.
Proof.
  intros Hq H. rewrite (npow2_grid q e Hq) in *. by apply round_at_ge.
Qed.

Lemma round_at_nonneg (q : Z) (x : Q) : 0 <= x -> 0 <= round_at q x.
Proof.
  intros H. pose proof (round_at_ge q 0 x) as H1.
  assert (E : inject_Z 0 * pow2 q == 0) by ring.
  rewrite E in H1. by apply H1.
Qed.

Lemma round_at_nonpos (q : Z) (x : Q) : x <= 0 -> round_at q x <= 0.
Proof.
  intros H. pose proof (round_at_le q 0 x) as H1.
  assert (E : inject_Z 0 * pow2 q == 0) by ring.
  rewrite E in H1. by apply H1.
Qed.

Lemma Qabs_pos_lt (x : Q) : ~ x == 0 -> 0 < Qabs x.
Proof.
  intros H. pose proof (Qabs_nonneg x) as Hn.
  destruct (Qeq_dec (Qabs x) 0) as [E|E]; [| lra].
  destruct (Qlt_le_dec x 0) as [Hx|Hx].
  - rewrite (Qabs_neg x) in E by lra. exfalso. apply H. lra.
  - rewrite (Qabs_pos x Hx) in E. contradiction.
Qed.

Lemma qexp_comp (x y : Q) : ~ x == 0 -> x == y -> qexp x = qexp y.
Proof.
  intros Hx E. unfold qexp.
  rewrite (ilog2_comp (Qabs x) (Qabs y)); [done | by apply Qabs_pos_lt |].
  by rewrite E.
Qed.

Lemma fl_zero (x : Q) : x == 0 -> fl x == 0.
Proof. apply round_at_zero. Qed.

Lemma fl_comp (x y : Q) : x == y -> fl x == fl y.
Proof.
  intros E. destruct (Qeq_dec x 0) as [Hx|Hx].
  - rewrite (fl_zero x Hx). symmetry. apply fl_zero. by rewrite <- E.
  - unfold fl. rewrite (qexp_comp x y Hx E). by apply round_at_comp.
Qed.

#[global] Instance fl_proper : Proper (Qeq ==> Qeq) fl.
Proof. intros x y. apply fl_comp. Qed.

Lemma fl_nonneg (x : Q) : 0 <= x -> 0 <= fl x.
Proof. apply round_at_nonneg. Qed.

Lemma fl_nonpos (x : Q) : x <= 0 -> fl x <= 0.
Proof. apply round_at_nonpos. Qed.

Lemma fl_mono_pos (x y : Q) : 0 < x -> x <= y -> fl x <= fl y.
Proof.
  intros Hx Hxy.
  assert (Hax : Qabs x == x) by (apply Qabs_pos; lra).
  assert (Hay : Qabs y == y) by (apply Qabs_pos; lra).
  destruct (ilog2_spec (Qabs x) ltac:(lra)) as [Hx1 Hx2].
  destruct (ilog2_spec (Qabs y) ltac:(lra)) as [Hy1 Hy2].
  pose proof (ilog2_mono (Qabs x) (Qabs y) ltac:(lra) ltac:(lra)) as He.
  unfold fl, qexp.
  set (ex := ilog2 (Qabs x)) in *. set (ey := ilog2 (Qabs y)) in *.
  destruct (Z.eq_dec (Z.max (ex - 52) (-1074)) (Z.max (ey - 52) (-1074)))
    as [E|E].
  - rewrite E. by apply round_at_mono.
  - assert (Hlt : (ex + 1 <= ey)%Z) by lia.
    pose proof (pow2_le _ _ Hlt) as Hp.
    apply Qle_trans with (pow2 ey).
    + apply round_at_le_pow2; [lia | lra].
    + apply round_at_ge_pow2; [lia | lra].
Qed.

Lemma fl_mono_neg (x y : Q) : y < 0 -> x <= y -> fl x <= fl y.
Proof.
  intros Hy Hxy.
  assert (Hax : Qabs x == - x) by (apply Qabs_neg; lra).
  assert (Hay : Qabs y == - y) by (apply Qabs_neg; lra).
  destruct (ilog2_spec (Qabs x) ltac:(lra)) as [Hx1 Hx2].
  destruct (ilog2_spec (Qabs y) ltac:(lra)) as [Hy1 Hy2].
  pose proof (ilog2_mono (Qabs y) (Qabs x) ltac:(lra) ltac:(lra)) as He.
  unfold fl, qexp.
  set (ex := ilog2 (Qabs x)) in *. set (ey := ilog2 (Qabs y)) in *.
  destruct (Z.eq_dec (Z.max (ex - 52) (-1074)) (Z.max (ey - 52) (-1074)))
    as [E|E].
  - rewrite E. by apply round_at_mono.
  - assert (Hlt : (ey + 1 <= ex)%Z) by lia.
    pose proof (pow2_le _ _ Hlt) as Hp.
    apply Qle_trans with (- pow2 ex).
    + apply round_at_le_npow2; [lia | lra].
    + apply round_at_ge_npow2; [lia | lra].
Qed.

(** Rounding to nearest is monotone. *)
Lemma fl_mono (x y : Q) : x <= y -> fl x <= fl y.
Proof.
  intros Hxy. destruct (Qlt_le_dec 0 x) as [Hx|Hx].
  - by apply fl_mono_pos.
  - destruct (Qlt_le_dec y 0) as [Hy|Hy].
    + by apply fl_mono_neg.
    + apply Qle_trans with 0; [by apply fl_nonpos | by apply fl_nonneg].
Qed.

(** *** Doubles and the error of one rounding *)

(** The smallest positive normal double and the largest finite double. *)
Definition min_normal : Q := pow2 (-1022).
Definition max_double : Q := (2 - pow2 (-52)) * pow2 1023.

(** A finite double: a fixed point of the rounding within the range. *)
Definition finite_double (x : Q) : Prop :=
  is_double x /\ Qabs x <= max_double.

Lemma Qle_bool_le (x y : Q) : Qle_bool x y = true -> x <= y.
Proof. apply Qle_bool_iff. Qed.

Lemma Qeq_bool_Qeq (x y : Q) : Qeq_bool x y = true -> x == y.
Proof. apply Qeq_bool_iff. Qed.

(** In the normal range one rounding adds at most the fraction [2^-53]. *)
Lemma fl_upper_normal (x : Q) :
  min_normal <= x -> fl x <= x * (1 + pow2 (-53)).
Proof.
  unfold min_normal. intros Hx. pose proof (pow2_pos (-1022)) as Hm.
  assert (Hax : Qabs x == x) by (apply Qabs_pos; lra).
  destruct (ilog2_spec (Qabs x) ltac:(lra)) as [H1 H2].
  assert (He : (-1022 < ilog2 (Qabs x) + 1)%Z) by (apply pow2_lt_inv; lra).
  unfold fl, qexp. rewrite Z.max_l by lia.
  destruct (round_at_err (ilog2 (Qabs x) - 52) x) as [_ Hr].
  assert (E : pow2 (ilog2 (Qabs x) - 52) == pow2 (ilog2 (Qabs x)) * pow2 (-52))
    by apply (pow2_add _ (-52)).
  assert (Ec : (1 # 2) * pow2 (-52) == pow2 (-53)) by reflexivity.
  rewrite E in Hr. pose proof (pow2_pos (-52)) as H52.
  assert (Hp : pow2 (ilog2 (Qabs x)) * pow2 (-52) <= x * pow2 (-52))
    by (apply Qmult_le_compat_r; lra).
  rewrite <- Ec. lra.
Qed.

Lemma pow2_qexp_le (y : Q) :
  ~ y == 0 -> pow2 (qexp y) <= pow2 (-52) * Qabs y + pow2 (-1074).
Proof.
  intros Hy. destruct (ilog2_spec (Qabs y) (Qabs_pos_lt y Hy)) as [H1 _].
  pose proof (pow2_pos (-52)) as H52. pose proof (pow2_pos (-1074)) as Hm.
  pose proof (Qabs_nonneg y) as Ha.
  unfold qexp. destruct (Z.max_spec (ilog2 (Qabs y) - 52) (-1074))
    as [[_ ->] | [_ ->]].
  - assert (0 <= pow2 (-52) * Qabs y) by (apply Qmult_le_0_compat; lra). lra.
  - assert (E : pow2 (ilog2 (Qabs y) - 52) == pow2 (ilog2 (Qabs y)) * pow2 (-52))
      by apply (pow2_add _ (-52)).
    rewrite E.
    assert (pow2 (ilog2 (Qabs y)) * pow2 (-52) <= Qabs y * pow2 (-52))
      by (apply Qmult_le_compat_r; lra).
    lra.
Qed.

(** One rounding moves a number by at most the fraction [2^-53] of its
    magnitude, or by half the spacing of the subnormal numbers. *)
Lemma fl_err_abs (y : Q) :
  Qabs (fl y - y) <= pow2 (-53) * Qabs y + pow2 (-1075).
Proof.
  pose proof (Qabs_nonneg y) as Ha.
  assert (E53 : pow2 (-53) == (1 # 2) * pow2 (-52)) by reflexivity.
  assert (E75 : pow2 (-1075) == (1 # 2) * pow2 (-1074)) by reflexivity.
  pose proof (pow2_pos (-52)) as H52. pose proof (pow2_pos (-1074)) as Hm.
  pose proof (pow2_pos (-53)) as H53. pose proof (pow2_pos (-1075)) as H75.
  destruct (Qeq_dec y 0) as [Hy | Hy].
  - assert (E0 : Qabs (fl y - y) == 0).
    { rewrite (fl_zero y Hy), Hy. reflexivity. }
    pose proof (Qmult_le_0_compat _ _ (Qlt_le_weak _ _ H53) Ha) as Hp.
    rewrite E0. lra.
  - pose proof (pow2_qexp_le y Hy) as Hq.
    destruct (round_at_err (qexp y) y) as [Hlo Hhi]. fold (fl y) in Hlo, Hhi.
    apply Qabs_Qle_condition. rewrite E53, E75. split; lra.
Qed.

(** In the normal range the second term is not needed. *)
Lemma fl_err_normal (y : Q) :
  min_normal <= y -> Qabs (fl y - y) <= pow2 (-53) * y.
Proof.
  unfold min_normal. intros Hy. pose proof (pow2_pos (-1022)) as Hm.
  assert (Hay : Qabs y == y) by (apply Qabs_pos; lra).
  destruct (ilog2_spec (Qabs y) ltac:(lra)) as [H1 H2].
  assert (He : (-1022 < ilog2 (Qabs y) + 1)%Z) by (apply pow2_lt_inv; lra).
  destruct (round_at_err (qexp y) y) as [Hlo Hhi]. fold (fl y) in Hlo, Hhi.
  unfold qexp in Hlo, Hhi. rewrite Z.max_l in Hlo, Hhi by lia.
  assert (E : pow2 (ilog2 (Qabs y) - 52) == pow2 (ilog2 (Qabs y)) * pow2 (-52))
    by apply (pow2_add _ (-52)).
  assert (Ec : pow2 (-53) == (1 # 2) * pow2 (-52)) by reflexivity.
  rewrite E in Hlo, Hhi. pose proof (pow2_pos (-52)) as H52.
  assert (Hp : pow2 (ilog2 (Qabs y)) * pow2 (-52) <= y * pow2 (-52))
    by (apply Qmult_le_compat_r; lra).
  apply Qabs_Qle_condition. rewrite Ec. split; lra.
Qed.

(** Every double is a multiple of the smallest subnormal. *)
Lemma double_multiple (x : Q) :
  is_double x -> exists n, x == inject_Z n * pow2 (-1074).
Proof.
  unfold is_double, fl, round_at. intros H.
  pose proof (Z.le_max_r (ilog2 (Qabs x) - 52) (-1074)) as Hq.
  fold (qexp x) in Hq.
  pose proof (pow2_grid (-1074) (qexp x) Hq) as G.
  exists (rne (x / pow2 (qexp x)) * 2 ^ (qexp x - -1074))%Z.
  transitivity (inject_Z (rne (x / pow2 (qexp x)))
                * (inject_Z (2 ^ (qexp x - -1074)) * pow2 (-1074))).
  - rewrite <- G. symmetry. exact H.
  - rewrite inject_Z_mult. ring.
Qed.

(** Below the normal range the multiples of the smallest subnormal are the
    doubles: rounding leaves them as they are. *)
Lemma fl_small_multiple (n : Z) (x : Q) :
  x == inject_Z n * pow2 (-1074) -> Qabs x < min_normal -> fl x == x.
Proof.
  unfold min_normal. intros E Hx. destruct (Qeq_dec x 0) as [H0|H0].
  - rewrite H0 at 2. by apply fl_zero.
  - destruct (ilog2_spec (Qabs x) (Qabs_pos_lt x H0)) as [H1 _].
    assert (He : (ilog2 (Qabs x) < -1022)%Z) by (apply pow2_lt_inv; lra).
    unfold fl, qexp. rewrite Z.max_r by lia.
    rewrite (round_at_comp _ _ _ E), E. apply round_at_grid.
Qed.

(** The product of a double [fl x] with a factor [t] of at most [1 - 2^-31],
    rounded, does not exceed [x]: the two roundings add at most [2^-52] in
    proportion, less than what the factor takes away. *)
Lemma fl_scaled_le (n : Z) (t x : Q) :
  x == inject_Z n * pow2 (-1074) -> 0 < x ->
  0 <= t -> t <= 1 - pow2 (-31) ->
  fl (t * fl x) <= x.
Proof.
  intros E Hx Ht0 Ht1.
  assert (Ha : pow2 (-31) == 1 # 2147483648) by reflexivity.
  destruct (Qlt_le_dec x min_normal) as [Hs|Hn].
  - assert (Ex : fl x == x).
    { apply (fl_small_multiple n); [exact E |]. rewrite Qabs_pos; lra. }
    rewrite <- Ex at 2. apply fl_mono. rewrite Ex. nra.
  - pose proof (fl_upper_normal x Hn) as Hd.
    pose proof (fl_nonneg x ltac:(lra)) as Hd0.
    destruct (Qlt_le_dec (t * fl x) min_normal) as [Hy|Hy].
    + apply Qle_trans with (fl min_normal).
      * apply fl_mono. lra.
      * assert (Em : fl min_normal == min_normal)
          by (apply Qeq_bool_Qeq; vm_compute; reflexivity).
        lra.
    + pose proof (fl_upper_normal _ Hy) as Hp.
      assert (Hu : pow2 (-53) == 1 # 9007199254740992) by reflexivity.
      rewrite Hu in Hd, Hp. rewrite Ha in Ht1.
      assert (H1 : t * fl x <= t * (x * (1 + (1 # 9007199254740992))))
        by nra.
      assert (H2 : t * x <= (1 - (1 # 2147483648)) * x)
        by (apply Qmult_le_compat_r; lra).
      lra.
Qed.

End Float64.

(** ** Tensors as nested lists

    A 4-d tensor is indexed batch, channel, row, column. *)

Module Tensor.

Definition tensor1 (A : Type) : Type := list A.
Definition tensor2 (A : Type) : Type := list (list A).
Definition tensor3 (A : Type) : Type := list (list (list A)).
Definition tensor4 (A : Type) : Type := list (list (list (list A))).

Section Broadcast.
Context {A B C : Type}.

(** One dimension of a broadcasting binary operation: an operand of size 1
    in this dimension is repeated along the other. *)
Definition bzip (f : A -> B -> C) (xs : list A) (ys : list B) : list C :=
  match xs, ys with
  | [x], _ => map (f x) ys
  | _, [y] => map (fun x => f x y) xs
  | _, _ => zip_with f xs ys
  end.

End Broadcast.

Definition bzip3 {A B C : Type} (f : A -> B -> C) :
  tensor3 A -> tensor3 B -> tensor3 C :=
  bzip (bzip (bzip f)).

Definition bzip4 {A B C : Type} (f : A -> B -> C) :
  tensor4 A -> tensor4 B -> tensor4 C :=
  bzip (bzip3 f).

Section Pointwise.
Context {A B : Type}.

Definition map3 (f : A -> B) : tensor3 A -> tensor3 B := map (map (map f)).
Definition map4 (f : A -> B) : tensor4 A -> tensor4 B := map (map3 f).

(** [torch.cat(ts, dim=1)]: the channels of each sample are appended. *)
Definition cat1 (ts : list (tensor4 A)) : tensor4 A :=
  match ts with
  | [] => []
  | t :: rest => fold_left (zip_with app) rest t
  end.

(** [T[:, a:b, :, :]]. *)
Definition chan_slice (a b : nat) (T : tensor4 A) : tensor4 A :=
  map (fun s => take (b - a) (drop a s)) T.

(** [T[:, a:, :, :]]. *)
Definition chan_from (a : nat) (T : tensor4 A) : tensor4 A :=
  map (drop a) T.

(** [height, width = T.shape[-2:]]. *)
Definition shape_hw (T : tensor4 A) : nat * nat :=
  match T with
  | (ch :: _) :: _ =>
      (length ch, match ch with r :: _ => length r | [] => 0%nat end)
  | _ => (0%nat, 0%nat)
  end.

(** [T.view(B, -1)]: each sample flattened to one row. *)
Definition flatten_sample (s : tensor3 A) : list A := concat (concat s).

End Pointwise.

(** Transposition of the two outer dimensions of a matrix of rows. *)
Fixpoint transpose {A : Type} (l : list (list A)) : list (list A) :=
  match l with
  | [] => []
  | [r] => map (fun x => [x]) r
  | r :: rs => zip_with cons r (transpose rs)
  end.

(** [np.transpose(img, (0, 2, 3, 1))] on one sample: C,H,W to H,W,C. *)
Definition chw_to_hwc {A : Type} (img : tensor3 A) : tensor3 A :=
  map transpose (transpose img).

End Tensor.
Export Tensor.

(** ** Entries of tensors and of broadcast operations *)

Module Entries.

(** Entry [i] of a dimension that is broadcast when it has size 1. *)
Definition bget {A : Type} (xs : list A) (i : nat) : option A :=
  match xs with
  | [x] => Some x
  | _ => xs !! i
  end.

(** [T[b, c, h, w]], and the same entry of [T] broadcast to a larger shape. *)
Definition entry4 {A : Type} (T : tensor4 A) (b c h w : nat) : option A :=
  s ← T !! b; ch ← s !! c; r ← ch !! h; r !! w.

Definition bentry4 {A : Type} (T : tensor4 A) (b c h w : nat) : option A :=
  s ← bget T b; ch ← bget s c; r ← bget ch h; bget r w.

Lemma lookup_bget {A : Type} (xs : list A) (i : nat) (x : A) :
  xs !! i = Some x -> bget xs i = Some x.
Proof.
  destruct xs as [|y [|y' xs]]; [done | | done].
  destruct i as [|i]; [done |]. simpl. by rewrite lookup_nil.
Qed.

Lemma bget_map {A B : Type} (g : A -> B) (xs : list A) (i : nat) :
  bget (map g xs) i = g <$> bget xs i.
Proof.
  destruct xs as [|y [|y' xs]]; [done | done |].
  unfold bget. change (map g (y :: y' :: xs)) with (g y :: g y' :: map g xs).
  rewrite <- (list_lookup_fmap g (y :: y' :: xs)). done.
Qed.

Lemma lookup_map_Some {A B : Type} (g : A -> B) (xs : list A) (i : nat) (z : B) :
  map g xs !! i = Some z -> exists x, xs !! i = Some x /\ z = g x.
Proof.
  intros H. change (map g xs) with (g <$> xs) in H.
  rewrite list_lookup_fmap in H.
  destruct (xs !! i) as [x|]; [| discriminate].
  exists x. split; [done |]. by injection H.
Qed.

(** An entry of a broadcast operation is the operation on the entries of
    the operands, each taken with its own broadcasting. *)
Lemma bget_bzip {A B C : Type} (f : A -> B -> C) (xs : list A) (ys : list B)
    (i : nat) (z : C) :
  bget (bzip f xs ys) i = Some z ->
  exists x y, bget xs i = Some x /\ bget ys i = Some y /\ z = f x y.
Proof.
  destruct xs as [|x [|x' xs]].
  - destruct ys as [|y [|y' ys]]; simpl; try discriminate.
    all: by rewrite ?lookup_nil.
  - change (bzip f [x] ys) with (map (f x) ys). rewrite bget_map.
    destruct (bget ys i) as [y|]; [| discriminate].
    intros [= <-]. by exists x, y.
  - destruct ys as [|y [|y' ys]].
    + simpl. discriminate.
    + change (bzip f (x :: x' :: xs) [y])
        with (map (fun a => f a y) (x :: x' :: xs)).
      rewrite bget_map.
      destruct (bget (x :: x' :: xs) i) as [a|]; [| discriminate].
      intros [= <-]. by exists a, y.
    + change (bzip f (x :: x' :: xs) (y :: y' :: ys))
        with (zip_with f (x :: x' :: xs) (y :: y' :: ys)).
      destruct i as [|[|i]]; simpl.
      * intros [= <-]. by exists x, y.
      * intros [= <-]. by exists x', y'.
      * intros H. apply lookup_zip_with_Some in H as [a [b [-> [Ha Hb]]]].
        by exists a, b.
Qed.

Lemma entry4_bentry4 {A : Type} (T : tensor4 A) b c h w (z : A) :
  entry4 T b c h w = Some z -> bentry4 T b c h w = Some z.
Proof.
  unfold entry4, bentry4.
  destruct (T !! b) as [s|] eqn:E1; [| discriminate].
  rewrite (lookup_bget _ _ _ E1). simpl.
  destruct (s !! c) as [ch|] eqn:E2; [| discriminate].
  rewrite (lookup_bget _ _ _ E2). simpl.
  destruct (ch !! h) as [r|] eqn:E3; [| discriminate].
  rewrite (lookup_bget _ _ _ E3). simpl.
  apply lookup_bget.
Qed.

Lemma bentry4_map4 {A B : Type} (g : A -> B)
    (T : list (list (list (list A)))) b c h w :
  bentry4 (map4 g T) b c h w = g <$> bentry4 T b c h w.
Proof.
  unfold bentry4, map4, map3, tensor4, tensor3. rewrite bget_map.
  destruct (bget T b) as [s|]; [| done]. simpl. rewrite bget_map.
  destruct (bget s c) as [ch|]; [| done]. simpl. rewrite bget_map.
  destruct (bget ch h) as [r|]; [| done]. simpl. apply bget_map.
Qed.

Lemma lookup_map {A B : Type} (g : A -> B) (xs : list A) (i : nat) :
  map g xs !! i = g <$> xs !! i.
Proof. apply (list_lookup_fmap g). Qed.

Lemma entry4_map4 {A B : Type} (g : A -> B)
    (T : list (list (list (list A)))) b c h w :
  entry4 (map4 g T) b c h w = g <$> entry4 T b c h w.
Proof.
  unfold entry4, map4, map3, tensor4, tensor3. rewrite lookup_map.
  destruct (T !! b) as [s|]; [| done]. simpl. rewrite lookup_map.
  destruct (s !! c) as [ch|]; [| done]. simpl. rewrite lookup_map.
  destruct (ch !! h) as [r|]; [| done]. simpl. apply lookup_map.
Qed.

Lemma bentry4_bzip4 {A B C : Type} (f : A -> B -> C)
    (X : list (list (list (list A)))) (Y : list (list (list (list B))))
    b c h w (z : C) :
  bentry4 (bzip4 f X Y) b c h w = Some z ->
  exists x y,
    bentry4 X b c h w = Some x /\ bentry4 Y b c h w = Some y /\ z = f x y.
Proof.
  unfold bentry4, bzip4, bzip3, tensor4, tensor3. intros H.
  destruct (bget (bzip (bzip (bzip (bzip f))) X Y) b) as [s|] eqn:E1;
    [| discriminate].
  apply bget_bzip in E1 as [sx [sy [-> [-> ->]]]]. simpl in *.
  destruct (bget (bzip (bzip (bzip f)) sx sy) c) as [ch|] eqn:E2;
    [| discriminate].
  apply bget_bzip in E2 as [cx [cy [-> [-> ->]]]]. simpl in *.
  destruct (bget (bzip (bzip f) cx cy) h) as [r|] eqn:E3; [| discriminate].
  apply bget_bzip in E3 as [rx [ry [-> [-> ->]]]]. simpl in *.
  by apply bget_bzip in H.
Qed.

End Entries.
Export Entries.

(** ** Interpolation coefficients (lines 166-168 and 188) *)

Module Coeff.
Local Open Scope Q_scope.

(** [t = float(intermediateIndex) / flow_mag_max[i].item()]. *)
Definition frac_t (intermediateIndex : nat) (N : Z) : Q :=
  inject_Z (Z.of_nat intermediateIndex) / inject_Z N.

(** [temp = -t * (1 - t)]. *)
Definition temp (t : Q) : Q := - t * (1 - t).

(** [fCoeff = [temp, t * t, (1 - t) * (1 - t), temp]]. *)
Definition fCoeff (t : Q) : list Q :=
  [temp t; t * t; (1 - t) * (1 - t); temp t].

(** [wCoeff = [1 - t, t]]. *)
Definition wCoeff (t : Q) : list Q := [1 - t; t].

(** Python's [l[k]] on the short coefficient lists. *)
Definition at_ (l : list Q) (k : nat) : Q := nth k l 0.

Lemma temp_symmetric (t : Q) : temp (1 - t) == temp t.
Proof. unfold temp. ring. Qed.

Lemma wCoeff_sum (t : Q) : at_ (wCoeff t) 0 + at_ (wCoeff t) 1 == 1.
Proof. unfold at_, wCoeff. simpl. ring. Qed.

Lemma fCoeff_sum (t : Q) :
  at_ (fCoeff t) 0 + at_ (fCoeff t) 1 + at_ (fCoeff t) 2 + at_ (fCoeff t) 3
  == (1 - 2 * t) * (1 - 2 * t).
Proof. unfold at_, fCoeff, temp. simpl. ring. Qed.

(** The fractional time of an intermediate index lies strictly inside (0,1). *)
Lemma frac_t_range (i : nat) (N : Z) :
  (1 <= i)%nat -> (Z.of_nat i < N)%Z -> 0 < frac_t i N /\ frac_t i N < 1.
Proof.
  intros Hi HN. unfold frac_t.
  assert (HNpos : 0 < inject_Z N).
  { replace 0 with (inject_Z 0) by reflexivity. rewrite <- Zlt_Qlt. lia. }
  assert (Hipos : 0 < inject_Z (Z.of_nat i)).
  { replace 0 with (inject_Z 0) by reflexivity. rewrite <- Zlt_Qlt. lia. }
  assert (HiN : inject_Z (Z.of_nat i) < inject_Z N) by (rewrite <- Zlt_Qlt; lia).
  split.
  - apply Qlt_shift_div_l; [exact HNpos | lra].
  - apply Qlt_shift_div_r; [exact HNpos | lra].
Qed.

(** C4. Coefficient identity: for the fractional time [t = i/N] of every
    intermediate index the two blend weights add up to one, the
    flow-interpolation coefficients are
    [[-t(1-t); t*t; (1-t)*(1-t); -t(1-t)]], the first and last of them are
    [temp], and [temp] is unchanged when [t] and [1-t] are exchanged. *)
Theorem coefficient_identity (i : nat) (N : Z) :
  let t := frac_t i N in
  at_ (wCoeff t) 0 + at_ (wCoeff t) 1 == (1 - t) + t
  /\ (1 - t) + t == 1
  /\ fCoeff t = [- t * (1 - t); t * t; (1 - t) * (1 - t); - t * (1 - t)]
  /\ at_ (fCoeff t) 0 = temp t
  /\ at_ (fCoeff t) 3 = temp t
  /\ temp (1 - t) == temp t.
Proof.
  intros t.
  split; [unfold at_, wCoeff; simpl; reflexivity |].
  split; [ring |].
  split; [reflexivity |].
  split; [reflexivity |].
  split; [reflexivity |].
  apply temp_symmetric.
Qed.

End Coeff.

(** ** The cache of warp modules (lines 59 and 65-72) *)

Module WarpCache.

(** An instance of [model.backWarp].  Python objects have an identity, which
    [bw_id] stands for: the number of modules constructed before this one. *)
Record backWarp : Type := mk_backWarp {
  bw_id : nat;
  bw_W : nat;
  bw_H : nat
}.

(** The part of [self] the cache needs: the dict, and how many times the
    [backWarp] constructor has run. *)
Record cache : Type := mk_cache {
  flowBackWarp_dict : gmap (nat * nat) backWarp;
  constructed : nat
}.

(** [self.flowBackWarp_dict = dict()]. *)
Definition empty_cache : cache := mk_cache ∅ 0.

(** The call of [_move_to_device] on a new module (line 69) moves it in
    place and keeps its identity; it is left out here. *)
Definition get_flowBackWarp_module (width height : nat) (c : cache)
  : backWarp * cache :=
  match flowBackWarp_dict c !! (width, height) with
  | Some m => (m, c)
  | None =>
      let m := mk_backWarp (constructed c) width height in
      (m, mk_cache (<[(width, height) := m]> (flowBackWarp_dict c))
                   (S (constructed c)))
  end.

(** A run of calls, in order. *)
Definition get_all (keys : list (nat * nat)) (c : cache) : cache :=
  fold_left (fun c k => snd (get_flowBackWarp_module (fst k) (snd k) c)) keys c.

(** Every stored module was constructed earlier, and no module is stored
    under two keys. *)
Definition cache_ok (c : cache) : Prop :=
  (forall k m, flowBackWarp_dict c !! k = Some m -> bw_id m < constructed c)
  /\ (forall k1 k2 m1 m2,
        flowBackWarp_dict c !! k1 = Some m1 ->
        flowBackWarp_dict c !! k2 = Some m2 ->
        bw_id m1 = bw_id m2 -> k1 = k2).

Lemma empty_cache_ok : cache_ok empty_cache.
Proof.
  split; simpl; intros *; rewrite lookup_empty; discriminate.
Qed.

Lemma get_hit w h c m :
  flowBackWarp_dict c !! (w, h) = Some m ->
  get_flowBackWarp_module w h c = (m, c).
Proof. intros E. unfold get_flowBackWarp_module. by rewrite E. Qed.

Lemma get_miss w h c :
  flowBackWarp_dict c !! (w, h) = None ->
  get_flowBackWarp_module w h c =
    (mk_backWarp (constructed c) w h,
     mk_cache (<[(w, h) := mk_backWarp (constructed c) w h]> (flowBackWarp_dict c))
              (S (constructed c))).
Proof. intros E. unfold get_flowBackWarp_module. by rewrite E. Qed.

(** After a call the key is bound to the module that was returned. *)
Lemma get_stores w h c :
  flowBackWarp_dict (snd (get_flowBackWarp_module w h c)) !! (w, h)
  = Some (fst (get_flowBackWarp_module w h c)).
Proof.
  destruct (flowBackWarp_dict c !! (w, h)) as [m|] eqn:E.
  - by rewrite (get_hit _ _ _ _ E).
  - rewrite (get_miss _ _ _ E). simpl. apply lookup_insert_eq.
Qed.

(** A call never rebinds a key that is already bound. *)
Lemma get_keeps w h c k m :
  flowBackWarp_dict c !! k = Some m ->
  flowBackWarp_dict (snd (get_flowBackWarp_module w h c)) !! k = Some m.
Proof.
  intros Hk.
  destruct (flowBackWarp_dict c !! (w, h)) as [m'|] eqn:E.
  - by rewrite (get_hit _ _ _ _ E).
  - rewrite (get_miss _ _ _ E). simpl.
    rewrite lookup_insert_ne; [done | congruence].
Qed.

Lemma get_ok w h c : cache_ok c -> cache_ok (snd (get_flowBackWarp_module w h c)).
Proof.
  intros [Hlt Hinj].
  destruct (flowBackWarp_dict c !! (w, h)) as [m'|] eqn:E.
  - rewrite (get_hit _ _ _ _ E). by split.
  - rewrite (get_miss _ _ _ E). split; simpl.
    + intros k m. rewrite lookup_insert. case_decide as Hk.
      * intros [= <-]. simpl. lia.
      * intros Hm. apply Hlt in Hm. lia.
    + intros k1 k2 m1 m2. rewrite !lookup_insert.
      case_decide as H1; case_decide as H2.
      * congruence.
      * intros [= <-] Hm Hid. apply Hlt in Hm. simpl in Hid. lia.
      * intros Hm [= <-] Hid. apply Hlt in Hm. simpl in Hid. lia.
      * apply Hinj.
Qed.

Lemma get_all_keeps keys c k m :
  flowBackWarp_dict c !! k = Some m ->
  flowBackWarp_dict (get_all keys c) !! k = Some m.
Proof.
  revert c. induction keys as [|[w h] keys IH]; intros c Hk; [done |].
  simpl. apply IH. by apply get_keeps.
Qed.

Lemma get_all_ok keys c : cache_ok c -> cache_ok (get_all keys c).
Proof.
  revert c. induction keys as [|[w h] keys IH]; intros c Hc; [done |].
  simpl. apply IH. by apply get_ok.
Qed.

(** C5. Cache idempotence: the first call for a key that is not yet bound
    runs the constructor once and stores the module; every later call with
    the same key, after any run of other calls, returns that same instance,
    constructs nothing and leaves the cache as it is; a call with a different
    key returns a different instance and both keys stay bound to their own
    module. *)
Theorem cache_idempotence (c : cache) (w h : nat) :
  cache_ok c ->
  let m1 := fst (get_flowBackWarp_module w h c) in
  let c1 := snd (get_flowBackWarp_module w h c) in
  (flowBackWarp_dict c !! (w, h) = None ->
     constructed c1 = S (constructed c)
     /\ flowBackWarp_dict c1 !! (w, h) = Some m1)
  /\ (forall keys,
        let c' := get_all keys c1 in
        get_flowBackWarp_module w h c' = (m1, c'))
  /\ (forall keys w' h',
        (w', h') <> (w, h) ->
        let c' := get_all keys c1 in
        let m2 := fst (get_flowBackWarp_module w' h' c') in
        let c2 := snd (get_flowBackWarp_module w' h' c') in
        m2 <> m1 /\ bw_id m2 <> bw_id m1
        /\ flowBackWarp_dict c2 !! (w, h) = Some m1
        /\ flowBackWarp_dict c2 !! (w', h') = Some m2).
Proof.
  intros Hc m1 c1.
  assert (H1 : flowBackWarp_dict c1 !! (w, h) = Some m1) by apply get_stores.
  split; [| split].
  - intros E. split; [| exact H1].
    subst c1. by rewrite (get_miss _ _ _ E).
  - intros keys c'. apply get_hit. by apply get_all_keeps.
  - intros keys w' h' Hne c' m2 c2.
    assert (Hc2 : cache_ok c2) by (apply get_ok, get_all_ok, get_ok, Hc).
    assert (Hm1 : flowBackWarp_dict c2 !! (w, h) = Some m1)
      by (apply get_keeps, get_all_keeps, H1).
    assert (Hm2 : flowBackWarp_dict c2 !! (w', h') = Some m2) by apply get_stores.
    assert (Hid : bw_id m2 <> bw_id m1).
    { intros Hid. destruct Hc2 as [_ Hinj].
      apply Hne. exact (Hinj _ _ _ _ Hm2 Hm1 Hid). }
    repeat split; try done. congruence.
Qed.

(** The cache as [_load_net_from_checkpoint] leaves it, asked for 640x480
    twice and for 320x240 in between. *)
Lemma cache_idempotence_witness :
  cache_ok empty_cache
  /\ get_flowBackWarp_module 640 480
       (get_all [(320, 240)] (snd (get_flowBackWarp_module 640 480 empty_cache)))
     = (fst (get_flowBackWarp_module 640 480 empty_cache),
        get_all [(320, 240)] (snd (get_flowBackWarp_module 640 480 empty_cache))).
Proof.
  split; [exact empty_cache_ok |].
  exact (proj1 (proj2 (cache_idempotence empty_cache 640 480 empty_cache_ok))
               [(320, 240)]).
Defined.

End WarpCache.

(** ** Moving values to a device (lines 198-215) *)

Module Device.

Section Traverse.
Context {W A B : Type}.
Variable f : A -> list W * option B.

(** A list comprehension whose body warns and may raise: the elements are
    visited in order, warnings accumulate, the first exception ends it. *)
Fixpoint traverse (l : list A) : list W * option (list B) :=
  match l with
  | [] => ([], Some [])
  | v :: rest =>
      match f v with
      | (w1, None) => (w1, None)
      | (w1, Some v') =>
          let '(w2, r) := traverse rest in (w1 ++ w2, cons v' <$> r)
      end
  end.

Lemma traverse_length l ws l' :
  traverse l = (ws, Some l') -> length l' = length l.
Proof.
  revert ws l'. induction l as [|v rest IH]; intros ws l'; simpl.
  - intros [= _ <-]. reflexivity.
  - destruct (f v) as [w1 [v'|]]; [| discriminate].
    destruct (traverse rest) as [w2 [r|]]; simpl; [| discriminate].
    intros [= _ <-]. simpl. f_equal. by eapply IH.
Qed.

Lemma traverse_succeeds l :
  Forall (fun v => is_Some (snd (f v))) l -> is_Some (snd (traverse l)).
Proof.
  induction 1 as [|v rest [v' Hv] _ IH]; simpl; [by eexists |].
  destruct (f v) as [w1 r1]. simpl in Hv. subst r1.
  destruct (traverse rest) as [w2 r2]. simpl in *.
  destruct IH as [r ->]. by eexists.
Qed.

(** What a successful traversal returns: the results of the elements, and
    all their warnings in order. *)
Lemma traverse_Some l ws l' :
  traverse l = (ws, Some l') ->
  Forall2 (fun v v' => snd (f v) = Some v') l l'
  /\ ws = flat_map (fun v => fst (f v)) l.
Proof.
  revert ws l'. induction l as [|v rest IH]; intros ws l'; simpl.
  - intros [= <- <-]. split; [constructor | done].
  - destruct (f v) as [w1 [v'|]] eqn:Ev; [| discriminate].
    destruct (traverse rest) as [w2 [r|]]; simpl; [| discriminate].
    intros [= <- <-]. destruct (IH w2 r eq_refl) as [Hall ->].
    split; [| done].
    apply List.Forall2_cons; [by rewrite Ev | done].
Qed.

Lemma traverse_Forall2 l l' :
  Forall2 (fun v v' => snd (f v) = Some v') l l' ->
  snd (traverse l) = Some l'.
Proof.
  induction 1 as [|v v' l l' Hv _ IH]; simpl; [done |].
  destruct (f v) as [w1 r1]. simpl in Hv. subst r1.
  destruct (traverse l) as [w2 r2]. simpl in *. by subst r2.
Qed.

End Traverse.

Section MoveToDevice.

(** What torch provides: modules, tensors, devices and dtypes, whether CUDA
    is there, and the two [.to(device=, dtype=)] methods ([None]: the call
    raises).  [Other] stands for the values of every other Python type. *)
Variables (NNModule Tensor Other Dev Dtype : Type).
Variable cuda_is_available : bool.
Variable is_cpu : Dev -> bool.
Variable module_to : NNModule -> Dev -> option Dtype -> option NNModule.
Variable tensor_to : Tensor -> Dev -> option Dtype -> option Tensor.

#[warning="-register-all"]
Inductive pyval : Type :=
  | PModule (m : NNModule)
  | PTensor (t : Tensor)
  | PList (l : list pyval)
  | POther (o : Other).

Inductive warning : Type :=
  | CudaNotAvailable
  | TypeNotSupported (v : pyval).

(** The pair of the warnings emitted and the value returned ([None] when a
    [.to] call raised). *)
Fixpoint _move_to_device (_input : pyval) (device : Dev) (dtype : option Dtype)
  {struct _input} : list warning * option pyval :=
  let w0 :=
    if negb cuda_is_available && negb (is_cpu device)
    then [CudaNotAvailable] else [] in
  match _input with
  | PModule m => (w0, PModule <$> module_to m device dtype)
  | PTensor t => (w0, PTensor <$> tensor_to t device dtype)
  | PList l =>
      let '(ws, r) := traverse (fun v => _move_to_device v device dtype) l in
      (w0 ++ ws, PList <$> r)
  | POther o => (w0 ++ [TypeNotSupported _input], Some _input)
  end.

(** The call returns (no [.to] inside it raises). *)
Definition returns (v : pyval) (device : Dev) (dtype : option Dtype) : Prop :=
  is_Some (snd (_move_to_device v device dtype)).

(** C9. Device-move degradation: a value that is neither a module, a tensor
    nor a list makes the call warn and return the value itself, without
    raising; on a list the call goes through the elements and, when it
    returns, returns a list of the same length (it returns whenever the call
    returns on every element). *)
Theorem move_to_device_degrades (device : Dev) (dtype : option Dtype) :
  (forall o : Other,
      exists ws,
        _move_to_device (POther o) device dtype
        = (ws ++ [TypeNotSupported (POther o)], Some (POther o)))
  /\ (forall (l : list pyval) ws r,
        _move_to_device (PList l) device dtype = (ws, Some r) ->
        exists l', r = PList l' /\ length l' = length l
                   /\ Forall2 (fun v v' => snd (_move_to_device v device dtype) = Some v') l l')
  /\ (forall l : list pyval,
        Forall (fun v => returns v device dtype) l ->
        returns (PList l) device dtype).
Proof.
  split; [| split].
  - intros o. simpl. by eexists.
  - intros l ws r. simpl.
    destruct (traverse _ l) as [ws' [l'|]] eqn:E; simpl; [| discriminate].
    intros [= _ <-]. exists l'. split; [done |].
    split; [by eapply traverse_length |].
    clear ws. revert ws' l' E. induction l as [|v rest IH]; intros ws' l'; simpl.
    + intros [= _ <-]. constructor.
    + destruct (_move_to_device v device dtype) as [w1 [v'|]] eqn:Ev; [| discriminate].
      destruct (traverse _ rest) as [w2 [r|]] eqn:Er; simpl; [| discriminate].
      intros [= _ <-]. constructor; [by rewrite Ev | by eapply IH].
  - intros l Hl. unfold returns. simpl.
    pose proof (traverse_succeeds (fun v => _move_to_device v device dtype) l Hl) as Hs.
    destruct (traverse _ l) as [ws r]. simpl in *.
    destruct Hs as [l' ->]. by eexists.
Qed.

(** *** The whole value, nested lists included *)

(** [v'] is [v] with every module and every tensor replaced by what its
    [.to] returns; lists keep their structure and other values stay. *)
#[warning="-register-all"]
Inductive moved (device : Dev) (dtype : option Dtype) : pyval -> pyval -> Prop :=
  | moved_module m m' :
      module_to m device dtype = Some m' ->
      moved device dtype (PModule m) (PModule m')
  | moved_tensor t t' :
      tensor_to t device dtype = Some t' ->
      moved device dtype (PTensor t) (PTensor t')
  | moved_list l l' :
      Forall2 (moved device dtype) l l' ->
      moved device dtype (PList l) (PList l')
  | moved_other o : moved device dtype (POther o) (POther o).

(** The values of unsupported type inside [v], in the order of the visit,
    and the number of calls the visit makes. *)
Fixpoint unsupported (v : pyval) : list pyval :=
  match v with
  | PList l => flat_map unsupported l
  | POther _ => [v]
  | _ => []
  end.

Fixpoint calls (v : pyval) : nat :=
  match v with
  | PList l => S (list_sum (map calls l))
  | _ => 1
  end.

(** Induction over a value and, for a list, over all its elements. *)
Fixpoint pyval_nested_ind (P : pyval -> Prop)
    (Hm : forall m, P (PModule m)) (Ht : forall t, P (PTensor t))
    (Hl : forall l, Forall P l -> P (PList l))
    (Ho : forall o, P (POther o)) (v : pyval) : P v :=
  match v with
  | PModule m => Hm m
  | PTensor t => Ht t
  | PList l =>
      Hl l ((fix go (l : list pyval) : Forall P l :=
               match l with
               | [] => @List.Forall_nil _ P
               | x :: rest =>
                   @List.Forall_cons _ P x rest
                     (pyval_nested_ind P Hm Ht Hl Ho x) (go rest)
               end) l)
  | POther o => Ho o
  end.

(** X8. What [_move_to_device] does to a whole value, nested lists
    included: when it returns, the result has the structure of the input,
    with every module and tensor replaced by what its [.to] returned and
    every other value untouched, and it returns exactly when all those
    [.to] calls return.  With CUDA available or the CPU as target the
    warnings are the not-supported warnings of the unsupported values, one
    each, in the order of the visit; otherwise every call adds a CUDA
    warning of its own. *)
Theorem move_to_device_structure (device : Dev) (dtype : option Dtype)
    (v : pyval) :
  (forall ws v',
      _move_to_device v device dtype = (ws, Some v') ->
      moved device dtype v v'
      /\ (negb cuda_is_available && negb (is_cpu device) = false ->
          ws = map TypeNotSupported (unsupported v))
      /\ (negb cuda_is_available && negb (is_cpu device) = true ->
          length ws = (calls v + length (unsupported v))%nat))
  /\ (forall v', moved device dtype v v' ->
                 snd (_move_to_device v device dtype) = Some v').
Proof.
  induction v as [m|t|l IH|o] using pyval_nested_ind.
  - split.
    + intros ws v'. simpl.
      destruct (module_to m device dtype) as [m'|] eqn:E; simpl;
        [| discriminate].
      intros [= <- <-]. split; [by constructor |].
      split; intros ->; reflexivity.
    + intros v' Hv. inversion Hv as [? ? E| | |]; subst. simpl. by rewrite E.
  - split.
    + intros ws v'. simpl.
      destruct (tensor_to t device dtype) as [t'|] eqn:E; simpl;
        [| discriminate].
      intros [= <- <-]. split; [by constructor |].
      split; intros ->; reflexivity.
    + intros v' Hv. inversion Hv as [|? ? E | |]; subst. simpl. by rewrite E.
  - split.
    + intros ws v'. simpl.
      destruct (traverse _ l) as [ws' [l'|]] eqn:E; simpl; [| discriminate].
      intros [= <- <-].
      apply traverse_Some in E as [Hall ->].
      assert (Hmoved : Forall2 (moved device dtype) l l').
      { clear -IH Hall. induction Hall as [|x x' l l' Hx Hall IHl];
          [constructor |].
        apply Forall_cons in IH as [[Hx1 _] IH].
        constructor; [| by apply IHl].
        apply (Hx1 (fst (_move_to_device x device dtype))).
        rewrite <- Hx. by destruct (_move_to_device x device dtype). }
      split; [by constructor |].
      split; intros Hc; rewrite Hc.
      * simpl. clear Hmoved. induction Hall as [|x x' l l' Hx Hall IHl];
          [done |].
        apply Forall_cons in IH as [[Hx1 _] IH].
        simpl. rewrite map_app. f_equal; [| by apply IHl].
        apply (Hx1 _ x'); [| exact Hc].
        rewrite <- Hx. by destruct (_move_to_device x device dtype).
      * simpl. f_equal. clear Hmoved.
        induction Hall as [|x x' l l' Hx Hall IHl]; [done |].
        apply Forall_cons in IH as [[Hx1 _] IH].
        simpl. rewrite !length_app, (IHl IH).
        assert (Hlen : length (fst (_move_to_device x device dtype))
                       = (calls x + length (unsupported x))%nat).
        { apply (Hx1 _ x'); [| exact Hc].
          rewrite <- Hx. by destruct (_move_to_device x device dtype). }
        rewrite Hlen. lia.
    + intros v' Hv. inversion Hv as [| |? l' Hall|]; subst. simpl.
      assert (E : snd (traverse (fun v => _move_to_device v device dtype) l)
                  = Some l').
      { apply traverse_Forall2. clear Hv.
        induction Hall as [|x x' l l' Hx Hall IHl]; [constructor |].
        apply Forall_cons in IH as [[_ Hx2] IH].
        constructor; [by apply Hx2 | by apply IHl]. }
      destruct (traverse _ l) as [ws' r]. simpl in E. by subst r.
  - split.
    + intros ws v'. simpl. intros [= <- <-]. split; [constructor |].
      split; intros ->; simpl; [reflexivity | reflexivity].
    + intros v' Hv. inversion Hv; subst. reflexivity.
Qed.

End MoveToDevice.

End Device.

(** ** Conversion to 8-bit images (lines 141-145) *)

Module Image.
Local Open Scope Q_scope.

Section ToNumpy.

(** C leaves the conversion of nan or of an infinity to an integer
    undefined; [undef_cast] is what the platform gives. *)
Variable undef_cast : fval -> Z.

(** [.astype(np.uint8)]: truncation toward zero, kept to 8 bits. *)
Definition astype_uint8 (v : fval) : Z :=
  match v with
  | Fin q => (Qtrunc q mod 256)%Z
  | other => (undef_cast other mod 256)%Z
  end.

(** One entry of [np.clip(255 * img, 0, 255).astype(np.uint8)]. *)
Definition to_uint8_pixel (v : fval) : Z :=
  astype_uint8 (fclip 0 255 (fscale 255 v)).

Definition _to_numpy_image (img : tensor4 fval) : tensor4 Z :=
  map chw_to_hwc (map4 to_uint8_pixel img).

(** A property of every entry of a tensor. *)
Definition all3 {A : Type} (P : A -> Prop) (T : tensor3 A) : Prop :=
  Forall (Forall (Forall P)) T.
Definition all4 {A : Type} (P : A -> Prop) (T : tensor4 A) : Prop :=
  Forall (all3 P) T.

Definition in_uint8 (z : Z) : Prop := (0 <= z <= 255)%Z.

Lemma Qtrunc_nonneg (q : Q) : 0 <= q -> Qtrunc q = Qfloor q.
Proof.
  intros H. unfold Qtrunc.
  destruct (Qle_bool 0 q) eqn:E; [done |].
  apply Qle_bool_iff in H. congruence.
Qed.

Lemma clip_range (q : Q) : 0 <= Qmin (Qmax q 0) 255 /\ Qmin (Qmax q 0) 255 <= 255.
Proof.
  split.
  - apply Q.min_glb; [apply Q.le_max_r | lra].
  - apply Q.le_min_r.
Qed.

Lemma Qfloor_range (x : Q) :
  0 <= x -> x <= 255 -> (0 <= Qfloor x <= 255)%Z.
Proof.
  intros H0 H1. split.
  - change 0%Z with (Qfloor 0). by apply Qfloor_resp_le.
  - change 255%Z with (Qfloor 255). by apply Qfloor_resp_le.
Qed.

Lemma to_uint8_pixel_Fin (q : Q) :
  to_uint8_pixel (Fin q) = Qfloor (Qmin (Qmax (255 * q) 0) 255).
Proof.
  unfold to_uint8_pixel. simpl.
  destruct (clip_range (255 * q)) as [H0 H1].
  rewrite (Qtrunc_nonneg _ H0).
  apply Z.mod_small. pose proof (Qfloor_range _ H0 H1). lia.
Qed.

Lemma to_uint8_pixel_range (v : fval) : in_uint8 (to_uint8_pixel v).
Proof.
  unfold in_uint8. destruct v as [q| | |].
  - rewrite to_uint8_pixel_Fin.
    destruct (clip_range (255 * q)). by apply Qfloor_range.
  - by vm_compute.
  - by vm_compute.
  - unfold to_uint8_pixel. simpl.
    pose proof (Z.mod_pos_bound (undef_cast NaN) 256). lia.
Qed.

Lemma transpose_Forall {A : Type} (P : A -> Prop) (l : list (list A)) :
  Forall (Forall P) l -> Forall (Forall P) (transpose l).
Proof.
  induction 1 as [|r rs Hr Hrs IH]; [constructor |].
  destruct rs as [|r' rs'].
  - simpl. clear IH Hrs. induction Hr; constructor; auto.
  - change (transpose (r :: r' :: rs'))
      with (zip_with cons r (transpose (r' :: rs'))).
    revert IH. generalize (transpose (r' :: rs')). clear Hrs.
    induction Hr as [|x xs Hx Hxs IHr]; intros t Ht; [constructor |].
    destruct t as [|c t]; [constructor |].
    simpl. inversion Ht; subst. constructor; [by constructor | by apply IHr].
Qed.

Lemma chw_to_hwc_all3 {A : Type} (P : A -> Prop) (img : tensor3 A) :
  all3 P img -> all3 P (chw_to_hwc img).
Proof.
  unfold all3, chw_to_hwc. intros H.
  apply Forall_map.
  apply (transpose_Forall (Forall P)) in H.
  eapply Forall_impl; [exact H |].
  intros x Hx. by apply transpose_Forall.
Qed.

Lemma map4_all4 {A B : Type} (f : A -> B) (P : B -> Prop) (T : tensor4 A) :
  (forall a, P (f a)) -> all4 P (map4 f T).
Proof.
  intros Hf. unfold all4, all3, map4, map3.
  repeat (apply Forall_map; apply Forall_forall; intros ? _).
  apply Hf.
Qed.

(** C10. Output-range clamp: an entry [v] of the frames becomes
    [clip(255 * v, 0, 255)] cast to an unsigned 8-bit integer; for a finite
    [v] that is the floor of the clipped value, with no reduction modulo 256
    (255 from [v >= 1] on, 0 up to [v <= 0], also for the infinities), and
    every entry of the converted image lies in [0, 255], whatever the input
    entries are. *)
Theorem to_numpy_image_range (img : tensor4 fval) :
  _to_numpy_image img
  = map chw_to_hwc
      (map4 (fun v => astype_uint8 (fclip 0 255 (fscale 255 v))) img)
  /\ all4 in_uint8 (_to_numpy_image img)
  /\ (forall q : Q,
        to_uint8_pixel (Fin q) = Qfloor (Qmin (Qmax (255 * q) 0) 255)
        /\ (1 <= q -> to_uint8_pixel (Fin q) = 255%Z)
        /\ (q <= 0 -> to_uint8_pixel (Fin q) = 0%Z))
  /\ to_uint8_pixel PInf = 255%Z
  /\ to_uint8_pixel NInf = 0%Z.
Proof.
  split; [reflexivity |].
  split.
  { unfold _to_numpy_image, all4. apply Forall_map.
    pose proof (map4_all4 to_uint8_pixel in_uint8 img to_uint8_pixel_range) as H.
    eapply Forall_impl; [exact H |].
    intros x Hx. by apply chw_to_hwc_all3. }
  split; [| split; reflexivity].
  intros q. split; [apply to_uint8_pixel_Fin |]. split; intros Hq.
  - rewrite to_uint8_pixel_Fin.
    assert (E : Qmin (Qmax (255 * q) 0) 255 == 255).
    { rewrite Q.max_l by lra. apply Q.min_r. lra. }
    by rewrite (Qfloor_comp _ _ E).
  - rewrite to_uint8_pixel_Fin.
    assert (E : Qmin (Qmax (255 * q) 0) 255 == 0).
    { rewrite Q.max_r by lra. apply Q.min_l. lra. }
    by rewrite (Qfloor_comp _ _ E).
Qed.

(** *** The layout of the converted image *)

(** All rows of a matrix have [n] entries. *)
Definition rows_of {A : Type} (n : nat) (l : list (list A)) : Prop :=
  Forall (fun r => length r = n) l.

(** A frame of [H] rows and [W] columns in every channel. *)
Definition frame_shape {A : Type} (H W : nat) (s : list (list (list A)))
  : Prop :=
  Forall (fun ch => length ch = H /\ rows_of W ch) s.

(** [T[a, b, c]]. *)
Definition entry3 {A : Type} (T : list (list (list A))) (a b c : nat) : option A :=
  x ← T !! a; y ← x !! b; y !! c.

Lemma transpose_length {A : Type} (n : nat) (l : list (list A)) :
  l <> [] -> rows_of n l -> length (transpose l) = n.
Proof.
  intros Hne Hl. induction Hl as [|r rs Hr Hrs IH]; [done |].
  destruct rs as [|r' rs].
  - simpl. by rewrite length_map.
  - change (transpose (r :: r' :: rs))
      with (zip_with cons r (transpose (r' :: rs))).
    rewrite length_zip_with, IH by done. lia.
Qed.

Lemma transpose_lookup {A : Type} (n : nat) (l : list (list A)) (i j : nat) :
  rows_of n l ->
  transpose l !! j ≫= (fun col => col !! i) = l !! i ≫= (fun r => r !! j).
Proof.
  intros Hl. revert i. induction Hl as [|r rs Hr Hrs IH]; intros i.
  - by rewrite !lookup_nil.
  - destruct rs as [|r' rs].
    + simpl. rewrite lookup_map.
      destruct i as [|i]; simpl.
      * by destruct (r !! j).
      * destruct (r !! j); reflexivity.
    + change (transpose (r :: r' :: rs))
        with (zip_with cons r (transpose (r' :: rs))).
      rewrite lookup_zip_with.
      pose proof (transpose_length n (r' :: rs) ltac:(done) Hrs) as Hlen.
      destruct (r !! j) as [x|] eqn:Ex; cbn [mbind option_bind].
      * assert (Hj : (j < n)%nat)
          by (rewrite <- Hr; by apply lookup_lt_Some in Ex).
        destruct (transpose (r' :: rs) !! j) as [col|] eqn:Ec.
        2: { apply lookup_ge_None in Ec. lia. }
        cbn [mbind option_bind]. destruct i as [|i].
        { cbn [lookup list_lookup mbind option_bind]. by rewrite Ex. }
        exact (IH i).
      * assert (Hj : (n <= j)%nat)
          by (rewrite <- Hr; by apply lookup_ge_None in Ex).
        destruct i as [|i].
        { cbn [lookup list_lookup mbind option_bind]. by rewrite Ex. }
        specialize (IH i).
        rewrite (proj2 (lookup_ge_None _ _)) in IH by lia.
        exact IH.
Qed.

Lemma chw_to_hwc_lookup {A : Type} (H W : nat) (img : list (list (list A)))
    (h w c : nat) :
  frame_shape H W img ->
  entry3 (chw_to_hwc img) h w c = entry3 img c h w.
Proof.
  intros Hs. unfold entry3, chw_to_hwc.
  assert (H1 : rows_of H img).
  { eapply Forall_impl; [exact Hs |]. by intros ch [? _]. }
  assert (H2 : Forall (Forall (fun r => length r = W)) img).
  { eapply Forall_impl; [exact Hs |]. by intros ch [_ ?]. }
  rewrite lookup_map.
  pose proof (transpose_lookup H img c h H1) as E.
  destruct (transpose img !! h) as [px|] eqn:Eh; simpl in *.
  - assert (Hpx : rows_of W px).
    { apply (transpose_Forall (fun r => length r = W)) in H2.
      rewrite Forall_forall in H2. apply H2.
      by apply list_elem_of_lookup_2 in Eh. }
    rewrite (transpose_lookup W px c w Hpx).
    rewrite E. destruct (img !! c); reflexivity.
  - destruct (img !! c) as [ch|]; simpl in *; [by rewrite <- E | done].
Qed.
Lemma entry3_map3 {A B : Type} (g : A -> B) (T : list (list (list A)))
    (a b c : nat) :
  entry3 (map3 g T) a b c = g <$> entry3 T a b c.
Proof.
  unfold entry3, map3. rewrite lookup_map.
  destruct (T !! a) as [x|]; [| done]. simpl. rewrite lookup_map.
  destruct (x !! b) as [y|]; [| done]. simpl. apply lookup_map.
Qed.

Lemma frame_shape_map3 {A B : Type} (g : A -> B) (H W : nat)
    (s : list (list (list A))) :
  frame_shape H W s -> frame_shape H W (map3 g s).
Proof.
  unfold frame_shape, rows_of, map3. intros Hs.
  apply Forall_map. eapply Forall_impl; [exact Hs |].
  intros ch [Hlen Hrows]. simpl. rewrite length_map. split; [done |].
  apply Forall_map. eapply Forall_impl; [exact Hrows |].
  intros r Hr. simpl. by rewrite length_map.
Qed.

(** X9. Layout of the converted images: for frames of one shape (every
    channel [H] rows of [W] entries), entry (n, h, w, c) of the result of
    [_to_numpy_image] is the 8-bit value of entry (n, c, h, w) of the
    argument, and the two are defined for the same indices: the channels of
    a pixel end up side by side, nothing is lost or duplicated. *)
Theorem to_numpy_image_layout (H W : nat) (img : list (list (list (list fval))))
    (n h w c : nat) :
  Forall (frame_shape H W) img ->
  entry4 (_to_numpy_image img) n h w c
  = to_uint8_pixel <$> entry4 img n c h w.
Proof.
  intros Hshape. unfold _to_numpy_image, map4, entry4, tensor4, tensor3.
  rewrite !lookup_map.
  destruct (img !! n) as [s|] eqn:Es; [| reflexivity].
  cbn [fmap option_fmap option_map mbind option_bind].
  assert (Hs : frame_shape H W s).
  { rewrite Forall_forall in Hshape. apply Hshape.
    by apply list_elem_of_lookup_2 in Es. }
  pose proof (chw_to_hwc_lookup H W (map3 to_uint8_pixel s) h w c
                (frame_shape_map3 _ _ _ _ Hs)) as E.
  rewrite entry3_map3 in E. exact E.
Qed.

(** X10. The conversion keeps the order of brightness: of two finite entries
    the larger one never gets the smaller 8-bit value, and the two
    infinities get the extreme values 0 and 255. *)
Theorem to_uint8_pixel_monotone (q q' : Q) :
  q <= q' ->
  (to_uint8_pixel (Fin q) <= to_uint8_pixel (Fin q'))%Z
  /\ (forall v, to_uint8_pixel NInf <= to_uint8_pixel v
                <= to_uint8_pixel PInf)%Z.
Proof.
  intros Hq. split.
  - rewrite !to_uint8_pixel_Fin. apply Qfloor_resp_le.
    apply Q.min_le_compat_r, Q.max_le_compat_r. lra.
  - intros v. pose proof (to_uint8_pixel_range v) as Hr.
    unfold in_uint8 in Hr.
    change (to_uint8_pixel NInf) with 0%Z.
    change (to_uint8_pixel PInf) with 255%Z. exact Hr.
Qed.

End ToNumpy.

End Image.

(** ** The adaptive schedule (lines 147-196) *)

Module Scheduler.
Import Float64 Coeff WarpCache.
Local Open Scope Q_scope.

(** [.int()] of an integral float.  Within the 32-bit range the result is the
    value.  Outside it the conversion has no defined value in C; it does not
    raise, and the conversion instruction of x86 processors, which torch's
    CPU kernels use, returns [-2^31] for every such argument. *)
Definition to_int32 (z : Z) : Z :=
  if decide (- 2 ^ 31 <= z < 2 ^ 31)%Z then z else (- 2 ^ 31)%Z.

(** [values.max(-1)] of one flattened sample; torch raises when the row is
    empty. *)
Definition list_max (l : list Q) : option Q :=
  match l with
  | [] => None
  | x :: rest => Some (fold_left Qmax rest x)
  end.

(** [s.sum(0)] of one sample: the channels added entry by entry. *)
Definition sum_channels (s : tensor3 Q) : tensor2 Q :=
  match s with
  | [] => []
  | ch :: rest => fold_left (zip_with (zip_with Qplus)) rest ch
  end.

(** Python's [range(a, b)] for [0 <= a]. *)
Definition range (a b : Z) : list nat :=
  seq (Z.to_nat a) (Z.to_nat (b - a)).

Definition scale4 (c : Q) : tensor4 Q -> tensor4 Q := map4 (Qmult c).
Definition add4 : tensor4 Q -> tensor4 Q -> tensor4 Q := bzip4 Qplus.
Definition mul4 : tensor4 Q -> tensor4 Q -> tensor4 Q := bzip4 Qmult.

(** The final blend of line 190: numerator, divisor and quotient. *)
Definition blend_num (t : Q) (V_t_0 V_t_1 g_I0 g_I1 : tensor4 Q) : tensor4 Q :=
  add4 (mul4 (scale4 (at_ (wCoeff t) 0) V_t_0) g_I0)
       (mul4 (scale4 (at_ (wCoeff t) 1) V_t_1) g_I1).

Definition blend_den (t : Q) (V_t_0 V_t_1 : tensor4 Q) : tensor4 Q :=
  add4 (scale4 (at_ (wCoeff t) 0) V_t_0) (scale4 (at_ (wCoeff t) 1) V_t_1).

Definition blend (t : Q) (V_t_0 V_t_1 g_I0 g_I1 : tensor4 Q) : tensor4 fval :=
  bzip4 fdiv (blend_num t V_t_0 V_t_1 g_I0 g_I1) (blend_den t V_t_0 V_t_1).

(** The lists the loop appends to, and the cache it reads and fills. *)
Record loop_state : Type := mk_loop {
  ls_cache : cache;
  total_frames : list (tensor3 fval);
  timestamps : list Q
}.

Section Adaptive.

(** [x.pow(.5)] and [torch.sigmoid] on one entry. *)
Variable sqrtf : Q -> Q.
Variable sigmoid : Q -> Q.
(** [self.ArbTimeFlowIntrp], the UNet(20, 5). *)
Variable ArbTimeFlowIntrp : tensor4 Q -> tensor4 Q.
(** [backWarp.forward(img, flow)] of a cached module. *)
Variable flow_back_warp : backWarp -> tensor4 Q -> tensor4 Q -> tensor4 Q.
(** [self.negmean], of shape (3, 1, 1). *)
Variable negmean : tensor3 Q.

(** The per-pixel norms of one sample, row after row:
    [s.pow(2).sum(0).pow(.5).view(-1)]. *)
Definition pixel_norms (s : tensor3 Q) : list Q :=
  concat (map (map sqrtf) (sum_channels (map3 (fun x => x * x) s))).

(** [F.pow(2).sum(1).pow(.5).view(B, -1).max(-1)]: per sample, the largest
    per-pixel norm.  [view(B, -1)] raises for an empty batch, [max(-1)] for
    a sample without pixels.  (A sample without channels has no rows here,
    so its height and width are lost; the flows of this program have two
    channels.) *)
Definition flow_mag_dir (F : tensor4 Q) : option (list Q) :=
  match F with
  | [] => None
  | _ => mapM (fun s => list_max (pixel_norms s)) F
  end.

(** [torch.stack([flow_mag_0_1_max, flow_mag_1_0_max]).max(0)]. *)
Definition flow_mag_max (F_0_1 F_1_0 : tensor4 Q) : option (list Q) :=
  a ← flow_mag_dir F_0_1;
  b ← flow_mag_dir F_1_0;
  Some (zip_with Qmax a b).

(** [torch.ceil(flow_mag_max).int()]. *)
Definition flow_mag_max_int (F_0_1 F_1_0 : tensor4 Q) : option (list Z) :=
  ms ← flow_mag_max F_0_1 F_1_0;
  Some (map (fun m => to_int32 (Qceiling m)) ms).

(** The timestamp of an intermediate frame,
    [time0 + t * (time1 - time0)] with [t = float(intermediateIndex) / N]:
    four operations on doubles, each rounded. *)
Definition stamp (time0 time1 : Q) (N : Z) (intermediateIndex : nat) : Q :=
  let t := fl (frac_t intermediateIndex N) in
  fl (time0 + fl (t * fl (time1 - time0))).

(** The body of the inner loop, for sample [i] with frame count [N].  The
    blend is computed for the whole batch and sample [i] of it is kept
    ([Ft_p[i]]; the estimators return one sample per input sample). *)
Definition interpolate_step (I0 I1 : tensor4 Q) (time0 time1 : Q)
    (F_0_1 F_1_0 : tensor4 Q) (i : nat) (N : Z)
    (st : loop_state) (intermediateIndex : nat) : loop_state :=
  let t := frac_t intermediateIndex N in
  let F_t_0 := add4 (scale4 (at_ (fCoeff t) 0) F_0_1)
                    (scale4 (at_ (fCoeff t) 1) F_1_0) in
  let F_t_1 := add4 (scale4 (at_ (fCoeff t) 2) F_0_1)
                    (scale4 (at_ (fCoeff t) 3) F_1_0) in
  let height := fst (shape_hw I0) in
  let width := snd (shape_hw I0) in
  let got := get_flowBackWarp_module width height (ls_cache st) in
  let warp := flow_back_warp (fst got) in
  let g_I0_F_t_0 := warp I0 F_t_0 in
  let g_I1_F_t_1 := warp I1 F_t_1 in
  let intrpOut :=
    ArbTimeFlowIntrp
      (cat1 [I0; I1; F_0_1; F_1_0; F_t_1; F_t_0; g_I1_F_t_1; g_I0_F_t_0]) in
  let F_t_0_f := add4 (chan_slice 0 2 intrpOut) F_t_0 in
  let F_t_1_f := add4 (chan_slice 2 4 intrpOut) F_t_1 in
  let V_t_0 := map4 sigmoid (chan_slice 4 5 intrpOut) in
  let V_t_1 := map4 (fun v => 1 - v) V_t_0 in
  let g_I0_F_t_0_f := warp I0 F_t_0_f in
  let g_I1_F_t_1_f := warp I1 F_t_1_f in
  let Ft_p := blend t V_t_0 V_t_1 g_I0_F_t_0_f g_I1_F_t_1_f in
  let Ft_p_norm := bzip3 fsub (nth i Ft_p []) negmean in
  mk_loop (snd got)
          (total_frames st ++ [Ft_p_norm])
          (timestamps st ++ [stamp time0 time1 N intermediateIndex]).

(** [for intermediateIndex in range(1, flow_mag_max[i].item())]. *)
Definition sample_loop (I0 I1 : tensor4 Q) (time0 time1 : Q)
    (F_0_1 F_1_0 : tensor4 Q) (st : loop_state) (iN : nat * Z) : loop_state :=
  fold_left (interpolate_step I0 I1 time0 time1 F_0_1 F_1_0 (fst iN) (snd iN))
            (range 1 (snd iN)) st.

(** The two lists are Python lists the caller owns; the function extends
    them in place, which is the state returned here. *)
Definition _upsample_adaptive (c : cache) (I0 I1 : tensor4 Q) (time0 time1 : Q)
    (F_0_1 F_1_0 : tensor4 Q)
    (frames : list (tensor3 fval)) (stamps : list Q) : option loop_state :=
  let B := length F_0_1 in
  Ns ← flow_mag_max_int F_0_1 F_1_0;
  Some (fold_left (sample_loop I0 I1 time0 time1 F_0_1 F_1_0)
                  (zip (seq 0 B) Ns)
                  (mk_loop c frames stamps)).

(** Number of intermediate frames for a frame count [N]. *)
Definition n_intermediate (N : Z) : nat := Z.to_nat (Z.max (N - 1) 0).

(** The cache after [n] turns of the inner loop for images of the shape of
    [I0]: asked once, it stays as it is. *)
Definition cache_after (I0 : tensor4 Q) (n : nat) (c : cache) : cache :=
  match n with
  | O => c
  | S _ => snd (get_flowBackWarp_module (snd (shape_hw I0)) (fst (shape_hw I0)) c)
  end.

(** The timestamps the loops append for the frame counts [Ns]. *)
Definition new_stamps (time0 time1 : Q) (Ns : list Z) : list Q :=
  flat_map (fun N => map (stamp time0 time1 N) (range 1 N)) Ns.

Lemma range_length (N : Z) : length (range 1 N) = n_intermediate N.
Proof. unfold range, n_intermediate. rewrite length_seq. lia. Qed.

Lemma range_empty (N : Z) : (N <= 1)%Z -> range 1 N = [].
Proof.
  intros H. unfold range. replace (Z.to_nat (N - 1)) with 0%nat by lia. done.
Qed.

Lemma range_bounds (N : Z) (k : nat) :
  In k (range 1 N) -> (1 <= k)%nat /\ (Z.of_nat k < N)%Z.
Proof. unfold range. rewrite in_seq. lia. Qed.

(** What the inner loop does to the two lists, whatever it puts into the
    frames: one frame and one timestamp per index. *)
Lemma inner_loop_lists I0 I1 time0 time1 F_0_1 F_1_0 i N ks st :
  let st' := fold_left (interpolate_step I0 I1 time0 time1 F_0_1 F_1_0 i N) ks st in
  timestamps st' = timestamps st ++ map (stamp time0 time1 N) ks
  /\ exists fs, total_frames st' = total_frames st ++ fs
                /\ length fs = length ks.
Proof.
  revert st. induction ks as [|k ks IH]; intros st; simpl.
  - rewrite app_nil_r. split; [done |]. exists []. by rewrite app_nil_r.
  - destruct (IH (interpolate_step I0 I1 time0 time1 F_0_1 F_1_0 i N st k))
      as [Hs [fs [Hf Hl]]].
    split.
    + rewrite Hs. simpl. by rewrite <- app_assoc.
    + eexists (_ :: fs). split; [| simpl; by rewrite Hl].
      rewrite Hf. simpl. by rewrite <- app_assoc.
Qed.

Lemma outer_loop_lists I0 I1 time0 time1 F_0_1 F_1_0 iNs st :
  let st' := fold_left (sample_loop I0 I1 time0 time1 F_0_1 F_1_0) iNs st in
  timestamps st' = timestamps st ++ new_stamps time0 time1 (map snd iNs)
  /\ exists fs, total_frames st' = total_frames st ++ fs
                /\ length fs = length (new_stamps time0 time1 (map snd iNs)).
Proof.
  revert st. induction iNs as [|[i N] iNs IH]; intros st; simpl.
  - rewrite app_nil_r. split; [done |]. exists []. by rewrite app_nil_r.
  - destruct (IH (sample_loop I0 I1 time0 time1 F_0_1 F_1_0 st (i, N)))
      as [Hs [fs [Hf Hl]]].
    destruct (inner_loop_lists I0 I1 time0 time1 F_0_1 F_1_0 i N (range 1 N) st)
      as [Hs1 [fs1 [Hf1 Hl1]]].
    change (fold_left (interpolate_step I0 I1 time0 time1 F_0_1 F_1_0 i N)
                      (range 1 N) st)
      with (sample_loop I0 I1 time0 time1 F_0_1 F_1_0 st (i, N)) in Hs1, Hf1.
    split.
    + rewrite Hs, Hs1. unfold new_stamps. simpl. by rewrite <- app_assoc.
    + exists (fs1 ++ fs). split.
      * rewrite Hf, Hf1. by rewrite <- app_assoc.
      * unfold new_stamps in *. simpl.
        rewrite !length_app, length_map. by rewrite Hl, Hl1.
Qed.

(** The scheduler returns exactly when the frame counts are defined, and
    then extends the lists by the timestamps of [new_stamps] and as many
    frames. *)
Lemma upsample_adaptive_lists c I0 I1 time0 time1 F_0_1 F_1_0 frames stamps Ns :
  flow_mag_max_int F_0_1 F_1_0 = Some Ns ->
  length Ns = length F_0_1 ->
  exists st fs,
    _upsample_adaptive c I0 I1 time0 time1 F_0_1 F_1_0 frames stamps = Some st
    /\ timestamps st = stamps ++ new_stamps time0 time1 Ns
    /\ total_frames st = frames ++ fs
    /\ length fs = length (new_stamps time0 time1 Ns).
Proof.
  intros HN HB. unfold _upsample_adaptive. rewrite HN. simpl.
  pose proof (outer_loop_lists I0 I1 time0 time1 F_0_1 F_1_0
                (zip (seq 0 (length F_0_1)) Ns) (mk_loop c frames stamps))
    as [Hs [fs [Hf Hl]]].
  rewrite snd_zip in Hs, Hl by (rewrite length_seq; lia).
  eexists _, fs. split; [reflexivity |]. simpl in *. done.
Qed.

Lemma new_stamps_one time0 time1 N :
  new_stamps time0 time1 [N] = map (stamp time0 time1 N) (range 1 N).
Proof. unfold new_stamps. simpl. by rewrite app_nil_r. Qed.

Lemma new_stamps_length time0 time1 Ns :
  length (new_stamps time0 time1 Ns) = sum_list (map n_intermediate Ns).
Proof.
  unfold new_stamps. induction Ns as [|N Ns IH]; [done |].
  simpl. rewrite length_app, length_map, range_length. by rewrite IH.
Qed.

(** *** The largest flow magnitude of a pair *)

(** The L2 norm of the flow vector at pixel [(h, w)] of a two-channel flow
    field.  This definition and the next follow the wording of the count
    law (the maximum over both directions and all pixels of the per-pixel
    norm); they are compared with what the code computes,
    [flow_mag_max]. *)
Definition pixel_norm (s : tensor3 Q) (h w : nat) : option Q :=
  match s with
  | [u; v] =>
      ru ← u !! h; x ← ru !! w;
      rv ← v !! h; y ← rv !! w;
      Some (sqrtf (x * x + y * y))
  | _ => None
  end.

(** [m] is the largest per-pixel norm of the two flow fields, each of which
    has a pixel. *)
Definition max_magnitude (f01 f10 : tensor3 Q) (m : Q) : Prop :=
  (exists h w x, pixel_norm f01 h w = Some x)
  /\ (exists h w x, pixel_norm f10 h w = Some x)
  /\ (exists s h w x,
        (s = f01 \/ s = f10) /\ pixel_norm s h w = Some x /\ x == m)
  /\ (forall s h w x,
        (s = f01 \/ s = f10) -> pixel_norm s h w = Some x -> x <= m).

Lemma fold_Qmax_spec (rest : list Q) (x : Q) :
  x <= fold_left Qmax rest x
  /\ Forall (fun z => z <= fold_left Qmax rest x) rest
  /\ (fold_left Qmax rest x == x
      \/ exists z, In z rest /\ fold_left Qmax rest x == z).
Proof.
  revert x. induction rest as [|z rest IH]; intros x; simpl.
  - split; [lra |]. split; [constructor | by left].
  - destruct (IH (Qmax x z)) as [H1 [H2 H3]].
    pose proof (Q.le_max_l x z) as Hl. pose proof (Q.le_max_r x z) as Hr.
    split; [lra |]. split; [constructor; [lra | exact H2] |].
    destruct H3 as [H3 | [y [Hy H3]]].
    + destruct (Q.max_spec x z) as [[_ E] | [_ E]].
      * right. exists z. split; [by left | by transitivity (Qmax x z)].
      * left. by transitivity (Qmax x z).
    + right. exists y. split; [by right | exact H3].
Qed.

(** [max(-1)] returns an entry of the row that no entry exceeds. *)
Lemma list_max_spec (l : list Q) (y : Q) :
  list_max l = Some y ->
  (exists z, In z l /\ y == z) /\ Forall (fun z => z <= y) l.
Proof.
  destruct l as [|x rest]; [discriminate |]. simpl. intros [= <-].
  destruct (fold_Qmax_spec rest x) as [H1 [H2 H3]].
  split; [| by constructor].
  destruct H3 as [H3 | [z [Hz H3]]].
  - exists x. split; [by left | exact H3].
  - exists z. split; [by right | exact H3].
Qed.

Lemma list_max_defined (l : list Q) (x : Q) :
  In x l -> is_Some (list_max l).
Proof. destruct l; [done |]. intros _. by eexists. Qed.

Lemma map_zip_with_map {A B C D E : Type} (f : D -> E) (g : B -> C -> D)
    (a : A -> B) (b : A -> C) (l k : list A) :
  map f (zip_with g (map a l) (map b k))
  = zip_with (fun x y => f (g (a x) (b y))) l k.
Proof.
  revert k. induction l as [|x l IH]; intros [|y k]; simpl; try done.
  by rewrite IH.
Qed.

(** For two channels the norms are those of the pairs of entries. *)
Lemma pixel_norms_two (u v : tensor2 Q) :
  pixel_norms [u; v]
  = concat (zip_with (zip_with (fun x y => sqrtf (x * x + y * y))) u v).
Proof.
  unfold pixel_norms, map3, sum_channels. cbn [map fold_left].
  f_equal. rewrite map_zip_with_map. apply zip_with_ext; [| done | done].
  intros ru rv. apply map_zip_with_map.
Qed.

Lemma pixel_norms_In (u v : list (list Q)) (x : Q) :
  In x (pixel_norms [u; v]) <-> exists h w, pixel_norm [u; v] h w = Some x.
Proof.
  rewrite pixel_norms_two, in_concat. unfold pixel_norm. split.
  - intros [r [Hr Hx]].
    apply list_elem_of_In, list_elem_of_lookup in Hr as [h Hh].
    apply list_elem_of_In, list_elem_of_lookup in Hx as [w Hw].
    apply lookup_zip_with_Some in Hh as [ru [rv [-> [Hu Hv]]]].
    apply lookup_zip_with_Some in Hw as [a [b [-> [Ha Hb]]]].
    exists h, w. rewrite Hu, Hv. simpl. by rewrite Ha, Hb.
  - intros [h [w H]].
    destruct (u !! h) as [ru|] eqn:Hu; simpl in H; [| discriminate].
    destruct (ru !! w) as [a|] eqn:Ha; simpl in H; [| discriminate].
    destruct (v !! h) as [rv|] eqn:Hv; simpl in H; [| discriminate].
    destruct (rv !! w) as [b|] eqn:Hb; simpl in H; [| discriminate].
    apply (inj Some) in H. subst x.
    exists (zip_with (fun x y => sqrtf (x * x + y * y)) ru rv). split.
    + apply list_elem_of_In, list_elem_of_lookup. exists h.
      apply lookup_zip_with_Some. by exists ru, rv.
    + apply list_elem_of_In, list_elem_of_lookup. exists w.
      apply lookup_zip_with_Some. by exists a, b.
Qed.

(** The largest norm of one two-channel field, as the code computes it. *)
Lemma flow_mag_dir_spec (u v : tensor2 Q) :
  (exists h w x, pixel_norm [u; v] h w = Some x) ->
  exists a,
    flow_mag_dir [[u; v]] = Some [a]
    /\ (exists h w x, pixel_norm [u; v] h w = Some x /\ a == x)
    /\ (forall h w x, pixel_norm [u; v] h w = Some x -> x <= a).
Proof.
  intros [h [w [x Hx]]].
  assert (Hin : In x (pixel_norms [u; v])) by (apply pixel_norms_In; eauto).
  destruct (list_max_defined _ _ Hin) as [a Ha].
  exists a. split; [unfold flow_mag_dir; cbn [mapM]; by rewrite Ha |].
  destruct (list_max_spec _ _ Ha) as [[z [Hz Ez]] Hall]. split.
  - apply pixel_norms_In in Hz as [h' [w' Hz]]. by exists h', w', z.
  - intros h' w' y Hy. rewrite Forall_forall in Hall.
    apply Hall, list_elem_of_In, pixel_norms_In. eauto.
Qed.

(** What the code computes is the largest flow magnitude of the pair. *)
Lemma flow_mag_max_spec (u01 v01 u10 v10 : tensor2 Q) (m : Q) :
  max_magnitude [u01; v01] [u10; v10] m ->
  exists m',
    flow_mag_max [[u01; v01]] [[u10; v10]] = Some [m'] /\ m' == m.
Proof.
  intros [H01 [H10 [[s [h [w [x [Hs [Hx Ex]]]]]] Hle]]].
  destruct (flow_mag_dir_spec u01 v01 H01) as [a [Ea [[ha [wa [xa [Ha Eqa]]]] Hla]]].
  destruct (flow_mag_dir_spec u10 v10 H10) as [b [Eb [[hb [wb [xb [Hb Eqb]]]] Hlb]]].
  exists (Qmax a b). split; [unfold flow_mag_max; by rewrite Ea, Eb |].
  pose proof (Hle _ _ _ _ (or_introl eq_refl) Ha) as Ham.
  pose proof (Hle _ _ _ _ (or_intror eq_refl) Hb) as Hbm.
  pose proof (Q.le_max_l a b) as Hl. pose proof (Q.le_max_r a b) as Hr.
  apply Qle_antisym.
  - destruct (Q.max_spec a b) as [[_ ->] | [_ ->]]; lra.
  - destruct Hs as [-> | ->].
    + pose proof (Hla _ _ _ Hx). lra.
    + pose proof (Hlb _ _ _ Hx). lra.
Qed.

(** For two 2x2 fields the largest magnitude is read off the eight norms. *)
Lemma max_magnitude_2x2
    (a1 a2 a3 a4 b1 b2 b3 b4 c1 c2 c3 c4 d1 d2 d3 d4 m : Q) :
  let n := fun x y => sqrtf (x * x + y * y) in
  let norms := [n a1 b1; n a2 b2; n a3 b3; n a4 b4;
                n c1 d1; n c2 d2; n c3 d3; n c4 d4] in
  Forall (fun x => x <= m) norms ->
  Exists (fun x => x == m) norms ->
  max_magnitude [ [[a1; a2]; [a3; a4]]; [[b1; b2]; [b3; b4]] ]
                [ [[c1; c2]; [c3; c4]]; [[d1; d2]; [d3; d4]] ] m.
Proof.
  intros n norms HF HE.
  split; [by exists 0%nat, 0%nat, (n a1 b1) |].
  split; [by exists 0%nat, 0%nat, (n c1 d1) |].
  split.
  - unfold norms in HE.
    repeat (apply Exists_cons in HE as [HE | HE]);
      [ eexists _, 0%nat, 0%nat, _ | eexists _, 0%nat, 1%nat, _
      | eexists _, 1%nat, 0%nat, _ | eexists _, 1%nat, 1%nat, _
      | eexists _, 0%nat, 0%nat, _ | eexists _, 0%nat, 1%nat, _
      | eexists _, 1%nat, 0%nat, _ | eexists _, 1%nat, 1%nat, _
      | by apply Exists_nil in HE ].
    1-4: (split; [left; reflexivity | split; [reflexivity | exact HE]]).
    all: (split; [right; reflexivity | split; [reflexivity | exact HE]]).
  - unfold norms in HF. repeat (apply Forall_cons in HF as [? HF]).
    intros s h w x [-> | ->] Hx;
      destruct h as [|[|h]], w as [|[|w]]; simpl in Hx; try discriminate;
      apply (inj Some) in Hx; by subst x.
Qed.

Lemma flow_mag_max_int_of (F_0_1 F_1_0 : tensor4 Q) (ms : list Q) :
  flow_mag_max F_0_1 F_1_0 = Some ms ->
  flow_mag_max_int F_0_1 F_1_0 = Some (map (fun m => to_int32 (Qceiling m)) ms).
Proof. intros H. unfold flow_mag_max_int. by rewrite H. Qed.

Lemma to_int32_range (z : Z) : (- 2 ^ 31 <= to_int32 z < 2 ^ 31)%Z.
Proof. unfold to_int32. case_decide; lia. Qed.

Lemma to_int32_id (z : Z) : (- 2 ^ 31 <= z < 2 ^ 31)%Z -> to_int32 z = z.
Proof. intros H. unfold to_int32. by rewrite decide_True. Qed.

(** Below the range the converted count is not the ceiling, but it yields
    the same (empty) range of indices. *)
Lemma range_to_int32 (z : Z) : (z < 2 ^ 31)%Z -> range 1 (to_int32 z) = range 1 z.
Proof.
  intros H. unfold to_int32. case_decide; [done |].
  rewrite !range_empty; [done | lia | lia].
Qed.

Lemma range_to_int32_over (z : Z) : (2 ^ 31 <= z)%Z -> range 1 (to_int32 z) = [].
Proof.
  intros H. unfold to_int32. rewrite decide_False by lia.
  apply range_empty. lia.
Qed.

(** C1 (as the code has it). Count law: for a frame pair whose largest flow
    magnitude, the maximum over both directions and all pixels of the
    per-pixel L2 norm, is [m], the scheduler, called on the boundary frame
    alone as [upsample_sequence] does, returns the boundary frame followed
    by the intermediate frames of the indices [range(1, int(ceil(m)))], with
    one timestamp each.  As long as [ceil(m)] is below [2^31] these are
    exactly [max(ceil(m) - 1, 0)] frames, none for [m < 1]; from [2^31] on
    the conversion to a 32-bit integer no longer returns [ceil(m)] and no
    intermediate frame is produced. *)
Theorem count_law c I0 I1 time0 time1 u01 v01 u10 v10 boundary m :
  max_magnitude [u01; v01] [u10; v10] m ->
  exists st new_frames,
    _upsample_adaptive c I0 I1 time0 time1 [[u01; v01]] [[u10; v10]]
                       [boundary] [time0]
    = Some st
    /\ total_frames st = boundary :: new_frames
    /\ timestamps st
       = time0 :: map (stamp time0 time1 (to_int32 (Qceiling m)))
                      (range 1 (to_int32 (Qceiling m)))
    /\ length (timestamps st) = length (total_frames st)
    /\ ((Qceiling m < 2 ^ 31)%Z ->
        length new_frames = Z.to_nat (Z.max (Qceiling m - 1) 0)
        /\ length (total_frames st)
           = (Z.to_nat (Z.max (Qceiling m - 1) 0) + 1)%nat)
    /\ (m < 1 -> total_frames st = [boundary] /\ timestamps st = [time0])
    /\ ((2 ^ 31 <= Qceiling m)%Z ->
        total_frames st = [boundary] /\ timestamps st = [time0]).
Proof.
  intros Hmax.
  destruct (flow_mag_max_spec _ _ _ _ _ Hmax) as [m' [Hm Em]].
  pose proof (flow_mag_max_int_of _ _ _ Hm) as HN. cbn [map] in HN.
  rewrite (Qceiling_comp _ _ Em) in HN.
  destruct (upsample_adaptive_lists c I0 I1 time0 time1 _ _
              [boundary] [time0] _ HN eq_refl)
    as [st [fs [Hrun [Hs [Hf Hl]]]]].
  rewrite new_stamps_one in Hs, Hl. rewrite length_map, range_length in Hl.
  assert (Hnone : range 1 (to_int32 (Qceiling m)) = [] ->
                  total_frames st = [boundary] /\ timestamps st = [time0]).
  { intros E. rewrite Hs, Hf, E. rewrite <- range_length, E in Hl.
    destruct fs; [done | discriminate]. }
  exists st, fs. split; [exact Hrun |].
  split; [exact Hf |]. split; [exact Hs |].
  split.
  { rewrite Hs, Hf. simpl. by rewrite length_map, range_length, Hl. }
  split.
  { intros Hlt. rewrite <- range_length, range_to_int32 in Hl by exact Hlt.
    rewrite range_length in Hl. unfold n_intermediate in Hl.
    split; [exact Hl | rewrite Hf; simpl; lia]. }
  split.
  - intros Hlt. apply Hnone.
    assert (Hc : (Qceiling m <= 1)%Z).
    { change 1%Z with (Qceiling 1). apply Qceiling_resp_le. lra. }
    rewrite range_to_int32 by lia. by apply range_empty.
  - intros Hge. apply Hnone. by apply range_to_int32_over.
Qed.

(** *** The scheduler's use of the cache *)

Lemma get_twice w h c :
  snd (get_flowBackWarp_module w h (snd (get_flowBackWarp_module w h c)))
  = snd (get_flowBackWarp_module w h c).
Proof. by rewrite (get_hit _ _ _ _ (get_stores w h c)). Qed.

Lemma cache_after_add I0 a b c :
  cache_after I0 a (cache_after I0 b c) = cache_after I0 (b + a) c.
Proof.
  destruct b as [|b]; [done |].
  destruct a as [|a]; simpl; [done | apply get_twice].
Qed.

Lemma inner_loop_cache I0 I1 time0 time1 F_0_1 F_1_0 i N ks st :
  ls_cache (fold_left (interpolate_step I0 I1 time0 time1 F_0_1 F_1_0 i N) ks st)
  = cache_after I0 (length ks) (ls_cache st).
Proof.
  revert st. induction ks as [|k ks IH]; intros st; [done |].
  simpl fold_left. rewrite IH.
  change (ls_cache (interpolate_step I0 I1 time0 time1 F_0_1 F_1_0 i N st k))
    with (cache_after I0 1 (ls_cache st)).
  rewrite cache_after_add. done.
Qed.

Lemma outer_loop_cache I0 I1 time0 time1 F_0_1 F_1_0 iNs st :
  ls_cache (fold_left (sample_loop I0 I1 time0 time1 F_0_1 F_1_0) iNs st)
  = cache_after I0 (sum_list (map n_intermediate (map snd iNs))) (ls_cache st).
Proof.
  revert st. induction iNs as [|[i N] iNs IH]; intros st; [done |].
  simpl fold_left. rewrite IH. unfold sample_loop. cbn [fst snd].
  rewrite inner_loop_cache, cache_after_add.
  simpl. by rewrite range_length.
Qed.

(** X2. The scheduler asks the cache once per intermediate frame, always
    for the shape of [I0]: the cache is untouched when no intermediate frame
    is produced, and otherwise it is the cache after a single call, so at
    most one warp module is constructed per call of the scheduler. *)
Theorem scheduler_cache_effect c I0 I1 time0 time1 F_0_1 F_1_0 frames stamps Ns :
  flow_mag_max_int F_0_1 F_1_0 = Some Ns ->
  length Ns = length F_0_1 ->
  exists st,
    _upsample_adaptive c I0 I1 time0 time1 F_0_1 F_1_0 frames stamps = Some st
    /\ ls_cache st = cache_after I0 (sum_list (map n_intermediate Ns)) c
    /\ (sum_list (map n_intermediate Ns) = 0%nat -> ls_cache st = c)
    /\ (constructed (ls_cache st) <= S (constructed c))%nat.
Proof.
  intros HN HB. unfold _upsample_adaptive. rewrite HN. cbn [mbind option_bind].
  eexists. split; [reflexivity |].
  rewrite outer_loop_cache. rewrite snd_zip by (rewrite length_seq; lia).
  cbn [ls_cache]. split; [reflexivity |].
  split; [by intros -> |].
  destruct (sum_list (map n_intermediate Ns)); simpl; [lia |].
  unfold get_flowBackWarp_module.
  destruct (flowBackWarp_dict c !! _); simpl; lia.
Qed.

(** *** Frame counts and the two flow directions *)

Lemma Qceiling_Qmax (x y : Q) :
  Qceiling (Qmax x y) = Z.max (Qceiling x) (Qceiling y).
Proof.
  destruct (Qlt_le_dec y x) as [H|H].
  - rewrite (Qceiling_comp _ _ (Q.max_l x y (Qlt_le_weak _ _ H))).
    pose proof (Qceiling_resp_le y x (Qlt_le_weak _ _ H)). lia.
  - rewrite (Qceiling_comp _ _ (Q.max_r x y H)).
    pose proof (Qceiling_resp_le x y H). lia.
Qed.

Lemma counts_swap (a b : list Q) :
  map (fun m => to_int32 (Qceiling m)) (zip_with Qmax b a)
  = map (fun m => to_int32 (Qceiling m)) (zip_with Qmax a b).
Proof.
  revert b. induction a as [|x a IH]; intros [|y b]; try reflexivity.
  simpl. rewrite IH, !Qceiling_Qmax, Z.max_comm. reflexivity.
Qed.

Lemma counts_value (a b : list Q) :
  map (fun m => to_int32 (Qceiling m)) (zip_with Qmax a b)
  = zip_with (fun x y => to_int32 (Z.max (Qceiling x) (Qceiling y))) a b.
Proof.
  revert b. induction a as [|x a IH]; intros [|y b]; try reflexivity.
  simpl. by rewrite IH, Qceiling_Qmax.
Qed.

(** X7. The frame count of a sample is the larger of the two directions'
    rounded-up magnitudes, converted to a 32-bit integer, so it does not
    matter which of the two flow fields holds the larger motion: exchanging
    them gives the same counts (and fails in the same cases).  Where the
    rounded-up magnitudes are within the 32-bit range the count is the
    larger of the two. *)
Theorem frame_count_of_directions (F_0_1 F_1_0 : tensor4 Q) :
  flow_mag_max_int F_1_0 F_0_1 = flow_mag_max_int F_0_1 F_1_0
  /\ (forall a b Ns,
        flow_mag_dir F_0_1 = Some a ->
        flow_mag_dir F_1_0 = Some b ->
        flow_mag_max_int F_0_1 F_1_0 = Some Ns ->
        Ns = zip_with (fun x y => to_int32 (Z.max (Qceiling x) (Qceiling y)))
                      a b
        /\ (Forall (fun x => (- 2 ^ 31 <= Qceiling x < 2 ^ 31)%Z) (a ++ b) ->
            Ns = zip_with (fun x y => Z.max (Qceiling x) (Qceiling y)) a b)).
Proof.
  split.
  - unfold flow_mag_max_int, flow_mag_max.
    destruct (flow_mag_dir F_0_1) as [a|], (flow_mag_dir F_1_0) as [b|];
      try reflexivity.
    simpl. by rewrite counts_swap.
  - intros a b Ns Ha Hb. unfold flow_mag_max_int, flow_mag_max.
    rewrite Ha, Hb. simpl. intros [= <-]. rewrite counts_value.
    split; [reflexivity |]. clear. revert b.
    induction a as [|x a IH]; intros [|y b] Hr; try reflexivity.
    simpl in Hr. apply Forall_cons in Hr as [Hx Hr].
    apply Forall_app in Hr as [Hra Hrb].
    apply Forall_cons in Hrb as [Hy Hrb].
    simpl. rewrite IH by (apply Forall_app; by split).
    by rewrite to_int32_id by lia.
Qed.

End Adaptive.

(** *** The divisor of the blend *)

Lemma zip_with_map_map {A B C D : Type} (f : B -> C -> D) (g : A -> B)
    (h : A -> C) (l : list A) :
  zip_with f (map g l) (map h l) = map (fun x => f (g x) (h x)) l.
Proof. induction l as [|x l IH]; simpl; [done | by rewrite IH]. Qed.

(** On two operands of one shape broadcasting is the entry-wise operation. *)
Lemma bzip_map_map {A B C D : Type} (f : B -> C -> D) (g : A -> B)
    (h : A -> C) (l : list A) :
  bzip f (map g l) (map h l) = map (fun x => f (g x) (h x)) l.
Proof.
  destruct l as [|x [|y l]]; [done | done |].
  change (bzip f (map g (x :: y :: l)) (map h (x :: y :: l)))
    with (zip_with f (map g (x :: y :: l)) (map h (x :: y :: l))).
  apply zip_with_map_map.
Qed.

Lemma bzip4_map4_map4 {A B C D : Type} (f : B -> C -> D) (g : A -> B)
    (h : A -> C) (T : tensor4 A) :
  bzip4 f (map4 g T) (map4 h T) = map4 (fun x => f (g x) (h x)) T.
Proof.
  unfold bzip4, bzip3, map4, map3.
  rewrite bzip_map_map. apply map_ext. intros s.
  rewrite bzip_map_map. apply map_ext. intros ch.
  rewrite bzip_map_map. apply map_ext. intros r.
  apply bzip_map_map.
Qed.

Lemma map4_map4 {A B C : Type} (f : B -> C) (g : A -> B) (T : tensor4 A) :
  map4 f (map4 g T) = map4 (fun x => f (g x)) T.
Proof.
  unfold map4, map3. rewrite map_map. apply map_ext. intros s.
  rewrite map_map. apply map_ext. intros ch.
  rewrite map_map. apply map_ext. intros r. apply map_map.
Qed.

(** With [V_t_1 = 1 - V_t_0] as on line 183, every entry of the divisor is
    [(1 - t) * v + t * (1 - v)] for the entry [v] of [V_t_0]: nothing is
    added to it and it is not clamped. *)
Lemma blend_den_entries (t : Q) (V_t_0 : tensor4 Q) :
  blend_den t V_t_0 (map4 (fun v => 1 - v) V_t_0)
  = map4 (fun v => (1 - t) * v + t * (1 - v)) V_t_0.
Proof.
  unfold blend_den, add4, scale4. rewrite map4_map4.
  apply (bzip4_map4_map4 Qplus (Qmult (at_ (wCoeff t) 0))
           (fun v => at_ (wCoeff t) 1 * (1 - v))).
Qed.

Lemma fdiv_zero (x y : Q) : y == 0 -> is_finite (fdiv x y) = false.
Proof.
  intros Hy. unfold fdiv. apply Qeq_bool_iff in Hy. rewrite Hy.
  by destruct (x ?= 0).
Qed.

Lemma fdiv_nonzero (x y : Q) : ~ y == 0 -> fdiv x y = Fin (x / y).
Proof.
  intros Hy. unfold fdiv. destruct (Qeq_bool y 0) eqn:E; [| done].
  apply Qeq_bool_iff in E. contradiction.
Qed.

(** X1. Inside the loop the divisor of the blend is positive: [t = i/N] is
    strictly between 0 and 1 for every index of [range(1, N)], so for a
    visibility in [0, 1] the two terms cannot both vanish. *)
Lemma blend_den_pos (i : nat) (N : Z) (v : Q) :
  In i (range 1 N) -> 0 <= v -> v <= 1 ->
  0 < (1 - frac_t i N) * v + frac_t i N * (1 - v).
Proof.
  intros Hi Hv0 Hv1. apply range_bounds in Hi as [Hi HN].
  destruct (frac_t_range i N Hi HN) as [Ht0 Ht1].
  nra.
Qed.

Lemma blend_den_pos_witness :
  0 < (1 - frac_t 1 3) * (1 # 2) + frac_t 1 3 * (1 - (1 # 2)).
Proof.
  apply (blend_den_pos 1 3 (1 # 2)).
  - vm_compute. by left.
  - by vm_compute.
  - by vm_compute.
Defined.

(** C6. Unguarded blend division: the quotient of line 190 is taken entry by
    entry over the divisor [(1 - t) * V_t_0 + t * V_t_1] itself; at an entry
    where both visibility-weighted terms vanish the divisor is zero and the
    result is not a finite number, whatever the warped images hold. *)
Theorem blend_division_unguarded (t v g0 g1 : Q) :
  (1 - t) * v == 0 ->
  t * (1 - v) == 0 ->
  (forall V_t_0 : tensor4 Q,
      blend_den t V_t_0 (map4 (fun x => 1 - x) V_t_0)
      = map4 (fun x => (1 - t) * x + t * (1 - x)) V_t_0)
  /\ blend_den t [[[[v]]]] [[[[1 - v]]]] = [[[[(1 - t) * v + t * (1 - v)]]]]
  /\ (1 - t) * v + t * (1 - v) == 0
  /\ blend t [[[[v]]]] [[[[1 - v]]]] [[[[g0]]]] [[[[g1]]]]
     = [[[[fdiv ((1 - t) * v * g0 + t * (1 - v) * g1)
                ((1 - t) * v + t * (1 - v))]]]]
  /\ is_finite (fdiv ((1 - t) * v * g0 + t * (1 - v) * g1)
                     ((1 - t) * v + t * (1 - v))) = false.
Proof.
  intros H0 H1.
  split; [apply blend_den_entries |].
  split; [reflexivity |].
  assert (Hd : (1 - t) * v + t * (1 - v) == 0) by (rewrite H0, H1; ring).
  split; [exact Hd |].
  split; [reflexivity |].
  by apply fdiv_zero.
Qed.

(** At [t = 0] with a visibility of 0 both terms vanish. *)
Lemma blend_division_unguarded_witness :
  blend 0 [[[[0]]]] [[[[1 - 0]]]] [[[[1 # 2]]]] [[[[1 # 2]]]]
  = [[[[fdiv ((1 - 0) * 0 * (1 # 2) + 0 * (1 - 0) * (1 # 2))
             ((1 - 0) * 0 + 0 * (1 - 0))]]]]
  /\ is_finite (fdiv ((1 - 0) * 0 * (1 # 2) + 0 * (1 - 0) * (1 # 2))
                     ((1 - 0) * 0 + 0 * (1 - 0))) = false.
Proof.
  pose proof (blend_division_unguarded 0 0 (1 # 2) (1 # 2)) as H.
  destruct H as [_ [_ [_ [Hb Hf]]]]; [reflexivity | reflexivity |].
  split; [exact Hb | exact Hf].
Defined.

(** *** The interpolated flows and the blend, entry by entry *)

(** Lines 170-171: the two interpolated flows. *)
Definition F_t_0 (t : Q) (F_0_1 F_1_0 : tensor4 Q) : tensor4 Q :=
  add4 (scale4 (at_ (fCoeff t) 0) F_0_1) (scale4 (at_ (fCoeff t) 1) F_1_0).

Definition F_t_1 (t : Q) (F_0_1 F_1_0 : tensor4 Q) : tensor4 Q :=
  add4 (scale4 (at_ (fCoeff t) 2) F_0_1) (scale4 (at_ (fCoeff t) 3) F_1_0).

(** [interpolate_step] with the two flows named. *)
Lemma interpolate_step_flows (sigmoid : Q -> Q)
    (ArbTimeFlowIntrp : tensor4 Q -> tensor4 Q)
    (flow_back_warp : backWarp -> tensor4 Q -> tensor4 Q -> tensor4 Q)
    (negmean : tensor3 Q) I0 I1 time0 time1 F_0_1 F_1_0 i N st k :
  interpolate_step sigmoid ArbTimeFlowIntrp flow_back_warp negmean
                   I0 I1 time0 time1 F_0_1 F_1_0 i N st k
  = let t := frac_t k N in
    let got := get_flowBackWarp_module (snd (shape_hw I0)) (fst (shape_hw I0))
                                       (ls_cache st) in
    let warp := flow_back_warp (fst got) in
    let intrpOut :=
      ArbTimeFlowIntrp
        (cat1 [I0; I1; F_0_1; F_1_0; F_t_1 t F_0_1 F_1_0; F_t_0 t F_0_1 F_1_0;
               warp I1 (F_t_1 t F_0_1 F_1_0); warp I0 (F_t_0 t F_0_1 F_1_0)]) in
    let V_t_0 := map4 sigmoid (chan_slice 4 5 intrpOut) in
    let Ft_p :=
      blend t V_t_0 (map4 (fun v => 1 - v) V_t_0)
            (warp I0 (add4 (chan_slice 0 2 intrpOut) (F_t_0 t F_0_1 F_1_0)))
            (warp I1 (add4 (chan_slice 2 4 intrpOut) (F_t_1 t F_0_1 F_1_0))) in
    mk_loop (snd got)
            (total_frames st ++ [bzip3 fsub (nth i Ft_p []) negmean])
            (timestamps st ++ [stamp time0 time1 N k]).
Proof. reflexivity. Qed.

(** X3. The blend, entry by entry: for [0 < t < 1] and a visibility in
    [0, 1], every entry of the blended batch is a finite number, the weighted
    mean [((1-t) v x0 + t (1-v) x1) / ((1-t) v + t (1-v))] of the entries
    [x0] and [x1] of the two warped images at that position; the operands
    broadcast as torch does, so a one-channel visibility serves every colour
    channel.  (The arithmetic of the tensors is exact here; the equality is
    one of values before rounding.) *)
Theorem blend_weighted_mean (t : Q) (V_t_0 g_I0 g_I1 : tensor4 Q)
    (b c h w : nat) (z : fval) :
  0 < t -> t < 1 ->
  (forall v, bentry4 V_t_0 b c h w = Some v -> 0 <= v /\ v <= 1) ->
  entry4 (blend t V_t_0 (map4 (fun v => 1 - v) V_t_0) g_I0 g_I1) b c h w
  = Some z ->
  exists v x0 x1 q,
    bentry4 V_t_0 b c h w = Some v
    /\ bentry4 g_I0 b c h w = Some x0
    /\ bentry4 g_I1 b c h w = Some x1
    /\ 0 < (1 - t) * v + t * (1 - v)
    /\ z = Fin q
    /\ q == ((1 - t) * v * x0 + t * (1 - v) * x1) / ((1 - t) * v + t * (1 - v)).
Proof.
  intros Ht0 Ht1 HV Hz. apply entry4_bentry4 in Hz.
  unfold blend in Hz. apply bentry4_bzip4 in Hz as [n [d [Hn [Hd ->]]]].
  unfold blend_den, add4, scale4 in Hd.
  apply bentry4_bzip4 in Hd as [d0 [d1 [Hd0 [Hd1 ->]]]].
  rewrite bentry4_map4 in Hd0. rewrite !bentry4_map4 in Hd1.
  destruct (bentry4 V_t_0 b c h w) as [v|] eqn:Ev; [| discriminate].
  simpl in Hd0, Hd1. injection Hd0 as <-. injection Hd1 as <-.
  unfold blend_num, add4, mul4, scale4 in Hn.
  apply bentry4_bzip4 in Hn as [n0 [n1 [Hn0 [Hn1 ->]]]].
  apply bentry4_bzip4 in Hn0 as [a0 [x0 [Ha0 [Hx0 ->]]]].
  apply bentry4_bzip4 in Hn1 as [a1 [x1 [Ha1 [Hx1 ->]]]].
  rewrite bentry4_map4, Ev in Ha0. rewrite !bentry4_map4, Ev in Ha1.
  simpl in Ha0, Ha1. injection Ha0 as <-. injection Ha1 as <-.
  destruct (HV v eq_refl) as [Hv0 Hv1].
  change (at_ (wCoeff t) 0) with (1 - t). change (at_ (wCoeff t) 1) with t.
  assert (Hpos : 0 < (1 - t) * v + t * (1 - v)) by nra.
  exists v, x0, x1. eexists.
  split; [done |]. split; [done |]. split; [done |].
  split; [exact Hpos |].
  split; [apply fdiv_nonzero; lra | reflexivity].
Qed.

(** X4. Under linear motion, where the backward flow is the negated forward
    flow, the quadratic coefficients give the linear interpolation: every
    entry of [F_t_0] is [-t] times and every entry of [F_t_1] is [1 - t]
    times the entry of [F_0_1]. *)
Theorem linear_motion_flows (t : Q) (F_0_1 : tensor4 Q) (b c h w : nat) :
  (forall z, entry4 (F_t_0 t F_0_1 (map4 Qopp F_0_1)) b c h w = Some z ->
     exists x, entry4 F_0_1 b c h w = Some x /\ z == - t * x)
  /\ (forall z, entry4 (F_t_1 t F_0_1 (map4 Qopp F_0_1)) b c h w = Some z ->
        exists x, entry4 F_0_1 b c h w = Some x /\ z == (1 - t) * x).
Proof.
  split; intros z; unfold F_t_0, F_t_1, add4, scale4; rewrite map4_map4.
  - rewrite (bzip4_map4_map4 Qplus (Qmult (at_ (fCoeff t) 0))
               (fun x => at_ (fCoeff t) 1 * - x)).
    rewrite entry4_map4. destruct (entry4 F_0_1 b c h w) as [x|]; [| discriminate].
    intros [= <-]. exists x. split; [done |].
    unfold at_, fCoeff, temp. simpl. ring.
  - rewrite (bzip4_map4_map4 Qplus (Qmult (at_ (fCoeff t) 2))
               (fun x => at_ (fCoeff t) 3 * - x)).
    rewrite entry4_map4. destruct (entry4 F_0_1 b c h w) as [x|]; [| discriminate].
    intros [= <-]. exists x. split; [done |].
    unfold at_, fCoeff, temp. simpl. ring.
Qed.

Lemma blend_weighted_mean_witness :
  exists q,
    entry4 (blend (1 # 3) [[[[1 # 2; 1 # 4]]]]
                  (map4 (fun v => 1 - v) [[[[1 # 2; 1 # 4]]]])
                  [[[[0; 1 # 10]]; [[0; 2 # 10]]; [[0; 3 # 10]]]]
                  [[[[1; 9 # 10]]; [[1; 8 # 10]]; [[1; 7 # 10]]]])
           0 2 0 1
    = Some (Fin q)
    /\ q == 27 # 50.
Proof.
  destruct (blend_weighted_mean (1 # 3) [[[[1 # 2; 1 # 4]]]]
              [[[[0; 1 # 10]]; [[0; 2 # 10]]; [[0; 3 # 10]]]]
              [[[[1; 9 # 10]]; [[1; 8 # 10]]; [[1; 7 # 10]]]]
              0 2 0 1
              (fdiv ((1 - (1 # 3)) * (1 # 4) * (3 # 10)
                     + (1 # 3) * (1 - (1 # 4)) * (7 # 10))
                    ((1 - (1 # 3)) * (1 # 4) + (1 # 3) * (1 - (1 # 4)))))
    as [v [x0 [x1 [q [Hv [H0 [H1 [_ [Hz Hq]]]]]]]]].
  - by vm_compute.
  - by vm_compute.
  - intros v [= <-]. by vm_compute.
  - reflexivity.
  - injection Hv as <-. injection H0 as <-. injection H1 as <-.
    exists q. split; [by rewrite <- Hz |]. rewrite Hq. by vm_compute.
Defined.

End Scheduler.

(** ** Names of the image files (line 132) *)

Module FileName.
Import Stdlib.Strings.Ascii.
Local Open Scope string_scope.

(** [str(n)] for a natural number, the digits [%d] prints. *)
Definition decimal (n : nat) : string :=
  DecimalString.NilEmpty.string_of_uint (Nat.to_uint n).

Fixpoint zeros (k : nat) : string :=
  match k with
  | O => EmptyString
  | S k => String "0" (zeros k)
  end.

(** The flag [0] with a width: zeros on the left up to [width] characters,
    nothing cut when the number is longer. *)
Definition zero_pad (width : nat) (s : string) : string :=
  zeros (width - String.length s) +:+ s.

(** ["%08d.png" % idx]. *)
Definition img_name (idx : nat) : string :=
  zero_pad 8 (decimal idx) +:+ ".png".

(** Python's [int(s)] on a string of decimal digits. *)
Definition int_of_digits (s : string) : option nat :=
  Nat.of_uint <$> DecimalString.NilEmpty.uint_of_string s.

(** The index a file name stands for: [int(name[:-4])] when the name ends in
    [.png]. *)
Definition name_index (name : string) : option nat :=
  match rev (String.list_ascii_of_string name) with
  | "g"%char :: "n"%char :: "p"%char :: "."%char :: digits =>
      int_of_digits (String.string_of_list_ascii (rev digits))
  | _ => None
  end.

Lemma list_ascii_app (s1 s2 : string) :
  String.list_ascii_of_string (s1 +:+ s2)
  = (String.list_ascii_of_string s1 ++ String.list_ascii_of_string s2)%list.
Proof. induction s1 as [|c s1 IH]; simpl; [done | by rewrite IH]. Qed.

Lemma length_append (s1 s2 : string) :
  String.length (s1 +:+ s2) = (String.length s1 + String.length s2)%nat.
Proof. induction s1 as [|c s1 IH]; simpl; [done | by rewrite IH]. Qed.

Lemma length_zeros (k : nat) : String.length (zeros k) = k.
Proof. induction k as [|k IH]; simpl; [done | by rewrite IH]. Qed.

(** Zeros on the left do not change the number read. *)
Lemma int_of_zeros (k : nat) (d : Decimal.uint) :
  int_of_digits (zeros k +:+ DecimalString.NilEmpty.string_of_uint d)
  = Some (Nat.of_uint d).
Proof.
  unfold int_of_digits. induction k as [|k IH].
  - change (zeros 0 +:+ DecimalString.NilEmpty.string_of_uint d)
      with (DecimalString.NilEmpty.string_of_uint d).
    by rewrite DecimalString.NilEmpty.usu.
  - change (zeros (S k) +:+ DecimalString.NilEmpty.string_of_uint d)
      with (String "0" (zeros k +:+ DecimalString.NilEmpty.string_of_uint d)).
    cbn [DecimalString.NilEmpty.uint_of_string].
    destruct (DecimalString.NilEmpty.uint_of_string (zeros k +:+ DecimalString.NilEmpty.string_of_uint d))
      as [d'|]; [| discriminate].
    apply (inj Some) in IH. cbn. f_equal.
    unfold Nat.of_uint in *. cbn. exact IH.
Qed.

Lemma int_of_padded (width n : nat) :
  int_of_digits (zero_pad width (decimal n)) = Some n.
Proof.
  unfold zero_pad, decimal. rewrite int_of_zeros.
  by rewrite DecimalNat.Unsigned.of_to.
Qed.

Lemma name_index_img_name (idx : nat) : name_index (img_name idx) = Some idx.
Proof.
  unfold name_index, img_name. rewrite list_ascii_app, rev_app_distr.
  simpl. rewrite rev_involutive, String.string_of_list_ascii_of_string.
  apply int_of_padded.
Qed.

Lemma img_name_inj (i j : nat) : img_name i = img_name j -> i = j.
Proof.
  intros H. apply (f_equal name_index) in H.
  rewrite !name_index_img_name in H. by injection H.
Qed.

(** X11.  The name of an image file determines its index: reading the
    digits before [.png] back gives [idx], whatever its size (the width 8 is
    a minimum, nothing is cut), and the name has 8 or more digits followed by
    the four characters of the extension. *)
Theorem img_name_round_trip (idx : nat) :
  name_index (img_name idx) = Some idx
  /\ String.length (img_name idx)
     = (Nat.max 8 (String.length (decimal idx)) + 4)%nat.
Proof.
  split; [apply name_index_img_name |].
  unfold img_name, zero_pad. rewrite !length_append, length_zeros.
  change (String.length ".png") with 4%nat. lia.
Qed.

Example names :
  img_name 0 = "00000000.png" /\ img_name 1234 = "00001234.png".
Proof. by vm_compute. Qed.

End FileName.

(** ** Assembly of a pair and of a sequence (lines 74-121) *)

Module Assembler.
Import Float64 Coeff WarpCache Scheduler Image.
Local Open Scope Q_scope.

(** What [np.argsort] promises for its default [kind]: the indices of the
    argument, each once, in an order that makes the values ascend.  The
    default kind is quicksort, which numpy documents as not stable, so the
    order of indices of equal values is not part of the contract. *)
Definition argsort_spec (argsort : list Q -> list nat) : Prop :=
  forall ts,
    Permutation (argsort ts) (seq 0 (length ts))
    /\ StronglySorted Qle (map (fun i => nth i ts 0) (argsort ts)).

(** [[xs[j] for j in sorted_indices]]. *)
Definition take_at {A : Type} (d : A) (xs : list A) (sorted_indices : list nat)
  : list A :=
  map (fun j => nth j xs d) sorted_indices.

(** An argsort that meets the contract and is stable: insertion of the
    indices, from the last to the first, before the first index whose value
    is not smaller, so that equal values keep their order. *)
Fixpoint insert_index (before : nat -> nat -> bool) (i : nat) (l : list nat)
  : list nat :=
  match l with
  | [] => [i]
  | j :: rest =>
      if before i j then i :: l else j :: insert_index before i rest
  end.

Definition argsort_by (before : list Q -> nat -> nat -> bool) (ts : list Q)
  : list nat :=
  foldr (insert_index (before ts)) [] (seq 0 (length ts)).

Definition argsort_stable : list Q -> list nat :=
  argsort_by (fun ts i j => Qle_bool (nth i ts 0) (nth j ts 0)).

(** A frame pair as the sequence yields it: [img_pair] and [time_pair]. *)
Definition frame_pair : Type := (tensor3 Q * tensor3 Q) * (Q * Q).

(** What a run leaves on disk for one sequence: the image files by the index
    in their name ("%08d.png" % idx), in the order written, and the lines
    of timestamps.txt. *)
Record output : Type := mk_output {
  imgs : list (nat * tensor2 Z);
  timestamps_file : list Q
}.

(** The locals of [upsample_sequence] that live across pairs. *)
Record seq_state : Type := mk_seq {
  ss_cache : cache;
  idx : nat;
  timestamps_list : list Q;
  files : list (nat * tensor2 Z)
}.

Section Upsampler.

Variable sqrtf : Q -> Q.
Variable sigmoid : Q -> Q.
(** [self.flowComp], the UNet(6, 4), and [self.ArbTimeFlowIntrp]. *)
Variable flowComp : tensor4 Q -> tensor4 Q.
Variable ArbTimeFlowIntrp : tensor4 Q -> tensor4 Q.
Variable flow_back_warp : backWarp -> tensor4 Q -> tensor4 Q -> tensor4 Q.
(** [const.mean] negated and [const.std], both viewed as (3, 1, 1). *)
Variable negmean : tensor3 Q.
Variable std : tensor3 Q.
Variable argsort : list Q -> list nat.
Variable undef_cast : fval -> Z.
(** [cv2.cvtColor(img, cv2.COLOR_BGR2GRAY)]. *)
Variable cvtColor_BGR2GRAY : tensor3 Z -> tensor2 Z.

(** [self.TP]: [Normalize(mean=negmean, std=std)], channel by channel. *)
Definition TP (img : tensor3 Q) : tensor3 fval :=
  bzip3 fdiv (bzip3 Qminus img negmean) std.

(** [self.flowComp(torch.cat((I0, I1), dim=1))] split into its two
    directions (lines 94-95 and 102-104). *)
Definition pair_flows (p : frame_pair) : tensor4 Q * tensor4 Q :=
  let I0 := [fst (fst p)] in
  let I1 := [snd (fst p)] in
  let flowOut := flowComp (cat1 [I0; I1]) in
  (chan_slice 0 2 flowOut, chan_from 2 flowOut).

(** The frame counts of the pair, one per sample of the flow. *)
Definition pair_counts (p : frame_pair) : option (list Z) :=
  flow_mag_max_int sqrtf (fst (pair_flows p)) (snd (pair_flows p)).

(** Lines 93-109: the boundary frame, then the scheduler.  The move of
    [img_pair] to the device (line 93) changes no tensor entry and is not
    part of this function; [_move_to_device] is modelled in [Device]. *)
Definition pair_lists (c : cache) (p : frame_pair) : option loop_state :=
  let I0 := [fst (fst p)] in
  let I1 := [snd (fst p)] in
  let t0 := fst (snd p) in
  let t1 := snd (snd p) in
  let F_0_1 := fst (pair_flows p) in
  let F_1_0 := snd (pair_flows p) in
  _upsample_adaptive sqrtf sigmoid ArbTimeFlowIntrp flow_back_warp negmean
    c I0 I1 t0 t1 F_0_1 F_1_0 [TP (nth 0 I0 [])] [t0].

(** Lines 111-114: both lists reordered by the argsort of the timestamps. *)
Definition assemble (st : loop_state) : list (tensor3 fval) * list Q :=
  let sorted_indices := argsort (timestamps st) in
  (take_at [] (total_frames st) sorted_indices,
   take_at 0 (timestamps st) sorted_indices).

(** [_write_img]: the grey image goes to the file named by [idx]. *)
Definition _write_img (img : tensor3 Z) (idx : nat)
    (fs : list (nat * tensor2 Z)) : list (nat * tensor2 Z) :=
  fs ++ [(idx, cvtColor_BGR2GRAY img)].

(** [_write_timestamps]: one line, [str(t)], per timestamp. *)
Definition _write_timestamps (timestamps : list Q) : list Q := timestamps.

(** Lines 118-120. *)
Definition write_frames (frames : tensor4 Z)
    (w : nat * list (nat * tensor2 Z)) : nat * list (nat * tensor2 Z) :=
  fold_left (fun w frame => (S (fst w), _write_img frame (fst w) (snd w)))
            frames w.

(** One turn of the loop over the pairs. *)
Definition pair_step (st : seq_state) (p : frame_pair) : option seq_state :=
  ls ← pair_lists (ss_cache st) p;
  let sorted := assemble ls in
  let frames := _to_numpy_image undef_cast (fst sorted) in
  let w := write_frames frames (idx st, files st) in
  Some (mk_seq (ls_cache ls) (fst w) (timestamps_list st ++ snd sorted) (snd w)).

Fixpoint run_pairs (st : seq_state) (sequence : list frame_pair)
  : option seq_state :=
  match sequence with
  | [] => Some st
  | p :: rest => st' ← pair_step st p; run_pairs st' rest
  end.

(** [upsample_sequence]: [idx] and [timestamps_list] start afresh, the cache
    is the one [self] carries; [_write_timestamps] writes the list at the
    end. *)
Definition upsample_sequence (c : cache) (sequence : list frame_pair)
  : option (cache * output) :=
  st ← run_pairs (mk_seq c 0 [] []) sequence;
  Some (ss_cache st,
        mk_output (files st) (_write_timestamps (timestamps_list st))).

(** [upsample]: the directories of the walk in order, [None] where
    [get_sequence_or_none] finds no sequence; one output per sequence. *)
Fixpoint upsample (c : cache) (dirs : list (option (list frame_pair)))
  : option (cache * list output) :=
  match dirs with
  | [] => Some (c, [])
  | None :: rest => upsample c rest
  | Some sequence :: rest =>
      r ← upsample_sequence c sequence;
      rs ← upsample (fst r) rest;
      Some (fst rs, snd r :: snd rs)
  end.

(** Intermediate frames of a pair: over the samples of its flow, the
    indices from 1 up to the frame count. *)
Definition pair_intermediates (p : frame_pair) : nat :=
  match pair_counts p with
  | Some Ns => sum_list (map n_intermediate Ns)
  | None => 0%nat
  end.

(** What ends up in the file of a frame: the 8-bit image, made grey. *)
Definition to_file (frame : tensor3 fval) : tensor2 Z :=
  cvtColor_BGR2GRAY (chw_to_hwc (map3 (to_uint8_pixel undef_cast) frame)).

(** The assembled frames of a sequence with their timestamps, pair after
    pair, the cache handed on as [run_pairs] does. *)
Fixpoint sequence_entries (c : cache) (sequence : list frame_pair)
  : option (list (Q * tensor3 fval)) :=
  match sequence with
  | [] => Some []
  | p :: rest =>
      ls ← pair_lists c p;
      es ← sequence_entries (ls_cache ls) rest;
      Some (zip (snd (assemble ls)) (fst (assemble ls)) ++ es)
  end.

(** What the output of one sequence has to satisfy: one frame per pair plus
    the intermediates, file indices 0, 1, 2, ... in the order written, and
    line [k] of the timestamp file and file [k] coming from the same
    assembled frame. *)
Definition sequence_output_ok (sequence : list frame_pair) (out : output)
  : Prop :=
  length (imgs out)
  = (length sequence + sum_list (map pair_intermediates sequence))%nat
  /\ map fst (imgs out) = seq 0 (length (imgs out))
  /\ length (timestamps_file out) = length (imgs out)
  /\ exists c0 entries,
       sequence_entries c0 sequence = Some entries
       /\ timestamps_file out = map fst entries
       /\ map snd (imgs out) = map (fun e => to_file (snd e)) entries.

(** Every pair of the sequence has defined frame counts. *)
Definition sequence_defined (sequence : list frame_pair) : Prop :=
  Forall (fun p => is_Some (pair_counts p)) sequence.

(** *** Consequences of the argsort contract *)

Lemma take_at_seq {A : Type} (d : A) (xs : list A) :
  take_at d xs (seq 0 (length xs)) = xs.
Proof.
  unfold take_at. induction xs as [|x xs IH]; [done |].
  simpl. f_equal. rewrite <- seq_shift, map_map. exact IH.
Qed.

Lemma take_at_length {A : Type} (d : A) (xs : list A) (p : list nat) :
  length (take_at d xs p) = length p.
Proof. apply length_map. Qed.

(** Reordering by a permutation of the indices permutes the list. *)
Lemma take_at_perm {A : Type} (d : A) (xs : list A) (p : list nat) :
  Permutation p (seq 0 (length xs)) -> Permutation (take_at d xs p) xs.
Proof.
  intros Hp. rewrite <- (take_at_seq d xs) at 2.
  unfold take_at. by apply Permutation_map.
Qed.

(** Both lists are reordered by the same indices, so a frame stays with its
    timestamp. *)
Lemma take_at_zip {A B : Type} (da : A) (db : B) (xs : list A) (ys : list B)
    (p : list nat) :
  length xs = length ys ->
  Forall (fun i => (i < length xs)%nat) p ->
  zip (take_at da xs p) (take_at db ys p) = take_at (da, db) (zip xs ys) p.
Proof.
  intros Hlen Hp. unfold take_at.
  induction Hp as [|i p Hi Hp IH]; [done |].
  simpl. rewrite IH. f_equal.
  clear IH Hp. revert ys i Hlen Hi.
  induction xs as [|x xs IHx]; intros [|y ys] i Hlen Hi; simpl in *; try lia.
  destruct i as [|i]; [done |]. apply IHx; lia.
Qed.

Lemma perm_seq_bound (p : list nat) (n : nat) :
  Permutation p (seq 0 n) -> Forall (fun i => (i < n)%nat) p.
Proof.
  intros Hp. apply Forall_forall. intros i Hi.
  apply list_elem_of_In, (Permutation_in _ Hp), in_seq in Hi. lia.
Qed.

Lemma strictly_sorted_nth (ts : list Q) (a b : nat) :
  StronglySorted Qlt ts -> (a < b)%nat -> (b < length ts)%nat ->
  nth a ts 0 < nth b ts 0.
Proof.
  intros Hs. revert a b. induction Hs as [|x ts Hs IH Hx]; intros a b Hab Hb.
  - simpl in Hb. lia.
  - destruct b as [|b]; [lia |]. simpl in Hb.
    destruct a as [|a]; simpl.
    + rewrite Forall_forall in Hx. apply Hx, list_elem_of_In, nth_In. lia.
    + apply IH; lia.
Qed.

Lemma seq_sorted (a n : nat) : StronglySorted le (seq a n).
Proof.
  revert a. induction n as [|n IH]; intros a; simpl; constructor; [apply IH |].
  apply Forall_forall. intros i Hi.
  apply list_elem_of_In, in_seq in Hi. lia.
Qed.

Lemma ascending_values_ascending_indices (ts : list Q) (p : list nat) :
  StronglySorted Qlt ts ->
  Forall (fun i => (i < length ts)%nat) p ->
  StronglySorted Qle (map (fun i => nth i ts 0) p) ->
  StronglySorted le p.
Proof.
  intros Hts Hb. induction Hb as [|i p Hi Hb IH]; intros Hs; [constructor |].
  simpl in Hs. apply StronglySorted_inv in Hs as [Hs Hhd].
  constructor; [by apply IH |].
  rewrite Forall_forall in Hhd. apply Forall_forall. intros j Hj.
  assert (Hle : nth i ts 0 <= nth j ts 0).
  { apply Hhd. apply list_elem_of_fmap. by exists j. }
  destruct (Nat.le_gt_cases i j) as [|Hlt]; [done |].
  pose proof (strictly_sorted_nth ts j i Hts Hlt Hi). lra.
Qed.

(** On strictly increasing values the contract leaves one answer: the
    indices in their own order. *)
Lemma argsort_strict_id (sort : list Q -> list nat) (ts : list Q) :
  argsort_spec sort -> StronglySorted Qlt ts ->
  sort ts = seq 0 (length ts).
Proof.
  intros Hspec Hts. destruct (Hspec ts) as [Hp Hs].
  apply (StronglySorted_unique le); [| apply seq_sorted | exact Hp].
  apply (ascending_values_ascending_indices ts); [exact Hts | | exact Hs].
  by apply perm_seq_bound.
Qed.

(** *** The two insertion argsorts meet the contract *)

Lemma insert_index_perm (before : nat -> nat -> bool) (i : nat) (l : list nat) :
  Permutation (insert_index before i l) (i :: l).
Proof.
  induction l as [|j l IH]; simpl; [done |].
  destruct (before i j); [done |].
  rewrite IH. apply perm_swap.
Qed.

Lemma argsort_by_perm before (ts : list Q) :
  Permutation (argsort_by before ts) (seq 0 (length ts)).
Proof.
  unfold argsort_by. induction (seq 0 (length ts)) as [|i l IH]; simpl; [done |].
  rewrite insert_index_perm. by constructor.
Qed.

Lemma insert_index_sorted (key : nat -> Q) (before : nat -> nat -> bool)
    (i : nat) (l : list nat) :
  (forall a b, before a b = true -> key a <= key b) ->
  (forall a b, before a b = false -> key b <= key a) ->
  StronglySorted (fun a b => key a <= key b) l ->
  StronglySorted (fun a b => key a <= key b) (insert_index before i l).
Proof.
  intros Ht Hf Hl. induction Hl as [|j l Hl IH Hj]; simpl.
  - repeat constructor.
  - destruct (before i j) eqn:E.
    + constructor; [by constructor |].
      constructor; [by apply Ht |].
      eapply Forall_impl; [exact Hj |].
      intros x Hx. simpl in Hx. apply Ht in E. lra.
    + constructor; [exact IH |].
      rewrite insert_index_perm. constructor; [by apply Hf | exact Hj].
Qed.

Lemma argsort_by_spec (before : list Q -> nat -> nat -> bool) :
  (forall ts a b, before ts a b = true -> nth a ts 0 <= nth b ts 0) ->
  (forall ts a b, before ts a b = false -> nth b ts 0 <= nth a ts 0) ->
  argsort_spec (argsort_by before).
Proof.
  intros Ht Hf ts. split; [apply argsort_by_perm |].
  apply StronglySorted_fmap with (R1 := fun a b => nth a ts 0 <= nth b ts 0);
    [done |].
  unfold argsort_by. induction (seq 0 (length ts)) as [|i l IH]; simpl.
  - constructor.
  - apply insert_index_sorted; [apply Ht | apply Hf | exact IH].
Qed.

Lemma Qle_bool_false (x y : Q) : Qle_bool x y = false -> y <= x.
Proof.
  intros E. destruct (Qlt_le_dec y x) as [H|H]; [lra |].
  apply Qle_bool_iff in H. congruence.
Qed.

Lemma argsort_stable_spec : argsort_spec argsort_stable.
Proof.
  apply argsort_by_spec; intros ts a b E.
  - by apply Qle_bool_iff.
  - by apply Qle_bool_false.
Qed.

(** *** Timestamps of one pair *)

(** A well-formed time pair: two finite doubles with [t0 < t1] whose
    difference is within the range of doubles, so that no operation of
    line 196 overflows. *)
Definition well_formed_times (tp : Q * Q) : Prop :=
  finite_double (fst tp) /\ finite_double (snd tp)
  /\ fst tp < snd tp /\ snd tp - fst tp <= max_double.

Lemma inject_Z_pos (z : Z) : (0 < z)%Z -> 0 < inject_Z z.
Proof. intros H. change 0 with (inject_Z 0). by rewrite <- Zlt_Qlt. Qed.

Lemma frac_t_le (N : Z) (a b : nat) :
  (0 < N)%Z -> (a <= b)%nat -> frac_t a N <= frac_t b N.
Proof.
  intros HN Hab. unfold frac_t, Qdiv.
  apply Qmult_le_compat_r.
  - rewrite <- Zle_Qle. lia.
  - apply Qlt_le_weak, Qinv_lt_0_compat. by apply inject_Z_pos.
Qed.

(** The fractional time of an intermediate index, as a double: the frame
    count is a 32-bit integer, so [i/N] is at least [2^-31] away from 0 and
    from 1, and both bounds are doubles. *)
Lemma fl_frac_range (i : nat) (N : Z) :
  (1 <= i)%nat -> (Z.of_nat i < N)%Z -> (N < 2 ^ 31)%Z ->
  0 < fl (frac_t i N) /\ fl (frac_t i N) <= 1 - pow2 (-31).
Proof.
  intros Hi HiN HN.
  assert (Hc : pow2 (-31) == 1 # 2147483648) by reflexivity.
  assert (Hn : 0 < inject_Z N) by (apply inject_Z_pos; lia).
  assert (H1 : 1 <= inject_Z (Z.of_nat i))
    by (change 1 with (inject_Z 1); rewrite <- Zle_Qle; lia).
  assert (H2 : inject_Z (Z.of_nat i) + 1 <= inject_Z N).
  { change 1 with (inject_Z 1). rewrite <- inject_Z_plus, <- Zle_Qle. lia. }
  assert (H3 : inject_Z N <= 2147483648).
  { change 2147483648 with (inject_Z 2147483648). rewrite <- Zle_Qle. lia. }
  assert (Hlo : pow2 (-31) <= frac_t i N).
  { unfold frac_t. apply Qle_shift_div_l; [exact Hn |]. rewrite Hc. lra. }
  assert (Hhi : frac_t i N <= 1 - pow2 (-31)).
  { unfold frac_t. apply Qle_shift_div_r; [exact Hn |]. rewrite Hc. lra. }
  assert (E1 : fl (pow2 (-31)) == pow2 (-31))
    by (apply Qeq_bool_Qeq; vm_compute; reflexivity).
  assert (E2 : fl (1 - pow2 (-31)) == 1 - pow2 (-31))
    by (apply Qeq_bool_Qeq; vm_compute; reflexivity).
  apply fl_mono in Hlo, Hhi. rewrite E1 in Hlo. rewrite E2 in Hhi.
  split; [| exact Hhi]. rewrite Hc in Hlo. lra.
Qed.

(** No timestamp of an intermediate frame is earlier than [t0] ... *)
Lemma stamp_lower (time0 time1 : Q) (N : Z) (k : nat) :
  is_double time0 -> time0 <= time1 -> In k (range 1 N) ->
  time0 <= stamp time0 time1 N k.
Proof.
  intros H0 Ht Hk. apply range_bounds in Hk as [Hk HN].
  destruct (frac_t_range k N Hk HN) as [Hf _].
  pose proof (fl_nonneg (frac_t k N) ltac:(lra)) as Hft.
  pose proof (fl_nonneg (time1 - time0) ltac:(lra)) as Hd.
  pose proof (Qmult_le_0_compat _ _ Hft Hd) as Hp.
  apply fl_nonneg in Hp. unfold stamp, is_double in *.
  rewrite <- H0 at 1. apply fl_mono. lra.
Qed.

(** ... and none is later than [t1]. *)
Lemma stamp_upper (time0 time1 : Q) (N : Z) (k : nat) :
  is_double time0 -> is_double time1 -> time0 < time1 ->
  In k (range 1 N) -> (N < 2 ^ 31)%Z ->
  stamp time0 time1 N k <= time1.
Proof.
  intros H0 H1 Ht Hk HN. apply range_bounds in Hk as [Hk HkN].
  destruct (fl_frac_range k N Hk HkN HN) as [Hf0 Hf1].
  destruct (double_multiple _ H0) as [n0 E0].
  destruct (double_multiple _ H1) as [n1 E1].
  assert (E : time1 - time0 == inject_Z (n1 - n0) * pow2 (-1074)).
  { unfold Z.sub. rewrite inject_Z_plus, inject_Z_opp, E1 at 1.
    rewrite E0 at 1. ring. }
  pose proof (fl_scaled_le (n1 - n0) (fl (frac_t k N)) (time1 - time0) E
                ltac:(lra) ltac:(lra) Hf1) as Hp.
  unfold stamp, is_double in *. rewrite <- H1 at 2. apply fl_mono. lra.
Qed.

(** The timestamp the program computes is close to the exact value of
    [t0 + (i/N) (t1 - t0)]: four roundings, each of at most [2^-53] in
    proportion. *)
Lemma stamp_error (time0 time1 : Q) (N : Z) (k : nat) :
  time0 < time1 -> In k (range 1 N) -> (N < 2 ^ 31)%Z ->
  Qabs (stamp time0 time1 N k - (time0 + frac_t k N * (time1 - time0)))
  <= pow2 (-50) * (Qabs time0 + (time1 - time0)) + pow2 (-1073).
Proof.
  intros Ht Hk HN. apply range_bounds in Hk as [Hk HkN].
  destruct (frac_t_range k N Hk HkN) as [Hf0 Hf1].
  assert (Hfn : min_normal <= frac_t k N).
  { apply Qle_trans with (pow2 (-31)); [by apply Qle_bool_le; vm_compute |].
    assert (Hn : 0 < inject_Z N) by (apply inject_Z_pos; lia).
    assert (H1 : 1 <= inject_Z (Z.of_nat k))
      by (change 1 with (inject_Z 1); rewrite <- Zle_Qle; lia).
    assert (H3 : inject_Z N <= 2147483648).
    { change 2147483648 with (inject_Z 2147483648). rewrite <- Zle_Qle. lia. }
    assert (Hc : pow2 (-31) == 1 # 2147483648) by reflexivity.
    unfold frac_t. apply Qle_shift_div_l; [exact Hn |]. rewrite Hc. lra. }
  pose proof (fl_err_normal _ Hfn) as E1.
  pose proof (fl_err_abs (time1 - time0)) as E2.
  unfold stamp.
  set (tau := frac_t k N) in *. set (x := time1 - time0) in *.
  set (t := fl tau) in *. set (d := fl x) in *.
  pose proof (fl_err_abs (t * d)) as E3.
  set (p := fl (t * d)) in *.
  pose proof (fl_err_abs (time0 + p)) as E4.
  set (s := fl (time0 + p)) in *.
  assert (Hx : 0 < x) by (unfold x; lra).
  assert (Hd : 0 <= d) by (apply fl_nonneg; lra).
  assert (Ht0 : 0 <= t) by (apply fl_nonneg; lra).
  assert (Hp : 0 <= p) by (apply fl_nonneg; by apply Qmult_le_0_compat).
  rewrite (Qabs_pos x) in E2 by lra.
  rewrite (Qabs_pos (t * d)) in E3 by (by apply Qmult_le_0_compat).
  apply Qabs_Qle_condition in E1, E2, E3, E4.
  assert (Hu : pow2 (-53) == 1 # 9007199254740992) by reflexivity.
  assert (Hu50 : pow2 (-50) == 8 * (1 # 9007199254740992)) by reflexivity.
  assert (He73 : pow2 (-1073) == 4 * pow2 (-1075)) by reflexivity.
  pose proof (pow2_pos (-1075)) as Heta.
  rewrite Hu in E1, E2, E3, E4. rewrite Hu50, He73.
  set (eta := pow2 (-1075)) in *.
  pose proof (Qabs_nonneg time0) as HA.
  pose proof (Qabs_triangle time0 p) as HA2.
  rewrite (Qabs_pos p Hp) in HA2.
  (* the product of the two rounded factors against the exact product *)
  assert (Q1 : tau * d <= d).
  { assert (tau * d <= 1 * d) by (apply Qmult_le_compat_r; lra). lra. }
  assert (Q0 : 0 <= tau * d) by (apply Qmult_le_0_compat; lra).
  assert (P2 : (t - tau) * d <= (1 # 9007199254740992) * (tau * d)).
  { assert (E : (1 # 9007199254740992) * (tau * d) == (1 # 9007199254740992) * tau * d) by ring. rewrite E.
    apply Qmult_le_compat_r; lra. }
  assert (P3 : - ((1 # 9007199254740992) * (tau * d)) <= (t - tau) * d).
  { assert (E : - ((1 # 9007199254740992) * (tau * d)) == - ((1 # 9007199254740992) * tau) * d) by ring. rewrite E.
    apply Qmult_le_compat_r; lra. }
  assert (P4 : tau * (d - x) <= (1 # 9007199254740992) * x + eta).
  { assert (H : tau * (d - x) <= tau * ((1 # 9007199254740992) * x + eta)).
    { rewrite !(Qmult_comm tau). apply Qmult_le_compat_r; lra. }
    assert (H' : tau * ((1 # 9007199254740992) * x + eta) <= 1 * ((1 # 9007199254740992) * x + eta))
      by (apply Qmult_le_compat_r; lra).
    lra. }
  assert (P5 : - ((1 # 9007199254740992) * x + eta) <= tau * (d - x)).
  { assert (H : tau * (- ((1 # 9007199254740992) * x + eta)) <= tau * (d - x)).
    { rewrite !(Qmult_comm tau). apply Qmult_le_compat_r; lra. }
    assert (H' : tau * ((1 # 9007199254740992) * x + eta) <= 1 * ((1 # 9007199254740992) * x + eta))
      by (apply Qmult_le_compat_r; lra).
    assert (E : tau * (- ((1 # 9007199254740992) * x + eta)) == - (tau * ((1 # 9007199254740992) * x + eta))) by ring.
    rewrite E in H. lra. }
  assert (E : t * d - tau * x == (t - tau) * d + tau * (d - x)) by ring.
  apply Qabs_Qle_condition.
  assert (Ez : s - (time0 + tau * x)
               == (s - (time0 + p)) + (p - t * d) + (t * d - tau * x)) by ring.
  rewrite Ez, E.
  split; lra.
Qed.

(** The timestamps ascend with the index. *)
Lemma stamp_mono (time0 time1 : Q) (N : Z) (a b : nat) :
  time0 <= time1 -> (0 < N)%Z -> (a <= b)%nat ->
  stamp time0 time1 N a <= stamp time0 time1 N b.
Proof.
  intros Ht HN Hab. unfold stamp.
  pose proof (fl_mono _ _ (frac_t_le N a b HN Hab)) as Hf.
  pose proof (fl_nonneg (time1 - time0) ltac:(lra)) as Hd.
  apply fl_mono. apply Qplus_le_r. apply fl_mono.
  by apply Qmult_le_compat_r.
Qed.

(** The list the scheduler leaves for a single sample: the boundary time,
    then the intermediate times in the order of their indices, ascending. *)
Lemma pair_stamps_sorted (time0 time1 : Q) (N : Z) :
  is_double time0 -> time0 <= time1 ->
  StronglySorted Qle (time0 :: map (stamp time0 time1 N) (range 1 N)).
Proof.
  intros H0 Ht. constructor.
  - destruct (Z_le_gt_dec N 1) as [HN|HN].
    + rewrite range_empty by exact HN. constructor.
    + apply StronglySorted_fmap with (R1 := le); [| apply seq_sorted].
      intros a b Hab. apply stamp_mono; [done | lia | done].
  - apply Forall_forall. intros x Hx.
    apply list_elem_of_fmap in Hx as [k [-> Hk]].
    apply list_elem_of_In in Hk. by apply stamp_lower.
Qed.

Lemma new_stamps_ge (time0 time1 : Q) (Ns : list Z) :
  is_double time0 -> time0 <= time1 ->
  Forall (fun x => time0 <= x) (new_stamps time0 time1 Ns).
Proof.
  intros H0 Ht. unfold new_stamps. apply Forall_forall. intros x Hx.
  apply list_elem_of_In, in_flat_map in Hx as [N [_ Hx]].
  apply in_map_iff in Hx as [k [<- Hk]].
  by apply stamp_lower.
Qed.

Lemma new_stamps_inside (time0 time1 : Q) (Ns : list Z) :
  is_double time0 -> is_double time1 -> time0 < time1 ->
  Forall (fun N => (N < 2 ^ 31)%Z) Ns ->
  Forall (fun x => time0 <= x /\ x <= time1) (new_stamps time0 time1 Ns).
Proof.
  intros H0 H1 Ht HNs. unfold new_stamps. apply Forall_forall. intros x Hx.
  apply list_elem_of_In, in_flat_map in Hx as [N [HN Hx]].
  apply in_map_iff in Hx as [k [<- Hk]].
  rewrite Forall_forall in HNs. apply list_elem_of_In, HNs in HN.
  split; [apply stamp_lower; [done | lra | done] | by apply stamp_upper].
Qed.

(** *** One pair *)

Lemma pair_flows_length (p : frame_pair) :
  length (snd (pair_flows p)) = length (fst (pair_flows p)).
Proof. unfold pair_flows, chan_slice, chan_from. simpl. by rewrite !length_map. Qed.

Lemma flow_mag_dir_length (F : tensor4 Q) (a : list Q) :
  flow_mag_dir sqrtf F = Some a -> length a = length F.
Proof.
  unfold flow_mag_dir. destruct F as [|s F]; [discriminate |].
  intros H. by apply length_mapM in H.
Qed.

Lemma flow_mag_max_int_length (F_0_1 F_1_0 : tensor4 Q) (Ns : list Z) :
  length F_1_0 = length F_0_1 ->
  flow_mag_max_int sqrtf F_0_1 F_1_0 = Some Ns ->
  length Ns = length F_0_1.
Proof.
  intros Hlen. unfold flow_mag_max_int, flow_mag_max.
  destruct (flow_mag_dir sqrtf F_0_1) as [a|] eqn:Ea; simpl; [| discriminate].
  destruct (flow_mag_dir sqrtf F_1_0) as [b|] eqn:Eb; simpl; [| discriminate].
  intros [= <-]. apply flow_mag_dir_length in Ea, Eb.
  rewrite length_map, length_zip_with. lia.
Qed.

(** The frame counts are 32-bit integers. *)
Lemma pair_counts_range (p : frame_pair) (Ns : list Z) :
  pair_counts p = Some Ns -> Forall (fun N => (N < 2 ^ 31)%Z) Ns.
Proof.
  unfold pair_counts, flow_mag_max_int.
  destruct (flow_mag_max sqrtf _ _) as [ms|]; simpl; [| discriminate].
  intros [= <-]. apply Forall_forall. intros N HN.
  apply list_elem_of_fmap in HN as [m [-> _]].
  pose proof (to_int32_range (Qceiling m)). lia.
Qed.

(** The lists of a pair before the sort: the boundary frame and its time,
    then what the scheduler appends. *)
Lemma pair_lists_spec (c : cache) (p : frame_pair) (Ns : list Z) :
  pair_counts p = Some Ns ->
  exists st fs,
    pair_lists c p = Some st
    /\ timestamps st
       = fst (snd p) :: new_stamps (fst (snd p)) (snd (snd p)) Ns
    /\ total_frames st = TP (fst (fst p)) :: fs
    /\ length fs = sum_list (map n_intermediate Ns)
    /\ length (total_frames st) = length (timestamps st).
Proof.
  intros HN. unfold pair_counts in HN.
  pose proof (flow_mag_max_int_length _ _ _ (pair_flows_length p) HN) as HB.
  destruct (upsample_adaptive_lists sqrtf sigmoid ArbTimeFlowIntrp
              flow_back_warp negmean c [fst (fst p)] [snd (fst p)]
              (fst (snd p)) (snd (snd p)) _ _
              [TP (fst (fst p))] [fst (snd p)] Ns HN HB)
    as [st [fs [Hrun [Hs [Hf Hl]]]]].
  exists st, fs. split; [exact Hrun |]. split; [exact Hs |].
  split; [exact Hf |].
  rewrite new_stamps_length in Hl. split; [exact Hl |].
  rewrite Hs, Hf. simpl. by rewrite Hl, new_stamps_length.
Qed.

(** On strictly increasing timestamps the sort changes nothing. *)
Lemma assemble_increasing (st : loop_state) :
  argsort_spec argsort ->
  StronglySorted Qlt (timestamps st) ->
  length (total_frames st) = length (timestamps st) ->
  assemble st = (total_frames st, timestamps st).
Proof.
  intros Hspec Hs Hlen. unfold assemble.
  rewrite (argsort_strict_id argsort _ Hspec Hs).
  rewrite take_at_seq. rewrite <- Hlen. by rewrite take_at_seq.
Qed.

(** The sorted lists hold the frames with their own timestamps, in
    ascending order of timestamp. *)
Lemma assemble_sorted_perm (st : loop_state) :
  argsort_spec argsort ->
  length (total_frames st) = length (timestamps st) ->
  StronglySorted Qle (snd (assemble st))
  /\ Permutation (zip (fst (assemble st)) (snd (assemble st)))
                 (zip (total_frames st) (timestamps st))
  /\ length (fst (assemble st)) = length (total_frames st)
  /\ length (snd (assemble st)) = length (timestamps st).
Proof.
  intros Hspec Hlen. destruct (Hspec (timestamps st)) as [Hp Hs].
  unfold assemble. cbn [fst snd]. split; [exact Hs |].
  split.
  - rewrite (@take_at_zip (tensor3 fval) Q [] 0).
    + apply take_at_perm. rewrite length_zip. rewrite Hlen.
      by rewrite Nat.min_id.
    + exact Hlen.
    + rewrite Hlen. by apply perm_seq_bound.
  - rewrite !take_at_length. apply Permutation_length in Hp.
    rewrite length_seq in Hp. lia.
Qed.

(** The sorted timestamps are the emitted ones in another order. *)
Lemma assemble_stamps_perm (st : loop_state) :
  argsort_spec argsort -> Permutation (snd (assemble st)) (timestamps st).
Proof.
  intros Hspec. destruct (Hspec (timestamps st)) as [Hp _].
  unfold assemble. cbn [snd]. by apply take_at_perm.
Qed.


(** When no value is below the first one, the sort starts with an index
    whose value equals the first value. *)
Lemma sorted_head_least (sort : list Q -> list nat) (x : Q) (xs : list Q) :
  argsort_spec sort ->
  Forall (fun y => x <= y) xs ->
  exists i rest, sort (x :: xs) = i :: rest /\ nth i (x :: xs) 0 == x.
Proof.
  intros Hspec Hxs. destruct (Hspec (x :: xs)) as [Hp Hs].
  destruct (sort (x :: xs)) as [|i rest] eqn:E.
  { apply Permutation_length in Hp. simpl in Hp. lia. }
  exists i, rest. split; [done |].
  destruct i as [|i]; [reflexivity |].
  assert (Hi : (S i < length (x :: xs))%nat).
  { pose proof (perm_seq_bound _ _ Hp) as Hb. by inversion Hb. }
  assert (H0 : In 0%nat rest).
  { assert (In 0%nat (S i :: rest)) as [|]; [| discriminate | done].
    apply (Permutation_in _ (Permutation_sym Hp)), in_seq. simpl. lia. }
  simpl in Hs. apply StronglySorted_inv in Hs as [_ Hhd].
  rewrite Forall_forall in Hhd.
  assert (Hle : nth i xs 0 <= x).
  { apply (Hhd (nth 0 (x :: xs) 0)), list_elem_of_fmap.
    exists 0%nat. split; [done | by apply list_elem_of_In]. }
  rewrite Forall_forall in Hxs.
  assert (Hge : x <= nth i xs 0).
  { apply Hxs, list_elem_of_In, nth_In. simpl in Hi. lia. }
  simpl. by apply Qle_antisym.
Qed.




(** C2 (as the code has it). Timestamp ordering in double precision: for
    a frame pair with [t0 < t1] (finite doubles whose difference is in
    range; one sample, frame count [N]) the timestamps emitted are [t0]
    for the boundary frame and the double-precision value of
    [t0 + (i/N) * (t1 - t0)] for the intermediate indices, which differs
    from the exact value by no more than four roundings; each lies in the
    closed interval [[t0, t1]]; they ascend with the index, and the pair's
    timestamps after the assembly sort are the same values in
    non-decreasing order. *)
Theorem timestamp_ordering (c : cache) (p : frame_pair) (N : Z) :
  argsort_spec argsort ->
  well_formed_times (snd p) ->
  pair_counts p = Some [N] ->
  exists st,
    pair_lists c p = Some st
    /\ timestamps st
       = fst (snd p)
         :: map (fun i => fl (fst (snd p)
                              + fl (fl (frac_t i N)
                                    * fl (snd (snd p) - fst (snd p)))))
                (range 1 N)
    /\ Forall (fun i =>
                 Qabs (fl (fst (snd p)
                           + fl (fl (frac_t i N)
                                 * fl (snd (snd p) - fst (snd p))))
                       - (fst (snd p)
                          + frac_t i N * (snd (snd p) - fst (snd p))))
                 <= pow2 (-50) * (Qabs (fst (snd p))
                                  + (snd (snd p) - fst (snd p)))
                    + pow2 (-1073))
              (range 1 N)
    /\ Forall (fun x => fst (snd p) <= x /\ x <= snd (snd p)) (timestamps st)
    /\ StronglySorted Qle (timestamps st)
    /\ Permutation (snd (assemble st)) (timestamps st)
    /\ Forall (fun x => fst (snd p) <= x /\ x <= snd (snd p))
              (snd (assemble st))
    /\ StronglySorted Qle (snd (assemble st)).
Proof.
  intros Hspec [[H0 _] [[H1 _] [Ht _]]] HN.
  destruct (pair_lists_spec c p [N] HN) as [st [fs [Hrun [Hs [Hf [Hl Hlen]]]]]].
  pose proof (pair_counts_range p [N] HN) as Hr.
  pose proof (new_stamps_inside _ _ [N] H0 H1 Ht Hr) as Hin.
  rewrite new_stamps_one in Hs, Hin.
  exists st. split; [exact Hrun |]. split; [exact Hs |].
  split.
  { apply Forall_forall. intros i Hi. apply list_elem_of_In in Hi.
    apply (stamp_error _ _ N i Ht Hi). by inversion Hr. }
  assert (Hall : Forall (fun x => fst (snd p) <= x /\ x <= snd (snd p))
                        (timestamps st)).
  { rewrite Hs. constructor; [lra | exact Hin]. }
  split; [exact Hall |].
  split; [rewrite Hs; apply pair_stamps_sorted; [exact H0 | lra] |].
  pose proof (assemble_stamps_perm st Hspec) as Hperm.
  split; [exact Hperm |].
  split; [by rewrite Hperm |].
  by destruct (assemble_sorted_perm st Hspec Hlen) as [Hsorted _].
Qed.


(** *** A sequence *)

Lemma write_frames_spec (frames : tensor4 Z) (w : nat * list (nat * tensor2 Z)) :
  fst (write_frames frames w) = (fst w + length frames)%nat
  /\ map fst (snd (write_frames frames w))
     = map fst (snd w) ++ seq (fst w) (length frames)
  /\ map snd (snd (write_frames frames w))
     = map snd (snd w) ++ map cvtColor_BGR2GRAY frames.
Proof.
  unfold write_frames. revert w.
  induction frames as [|f frames IH]; intros w; simpl.
  - rewrite !app_nil_r. repeat split. lia.
  - destruct (IH (S (fst w), _write_img f (fst w) (snd w))) as [H1 [H2 H3]].
    rewrite H1, H2, H3. unfold _write_img. simpl.
    rewrite !map_app. simpl. rewrite <- !app_assoc. simpl.
    repeat split. lia.
Qed.

Lemma to_numpy_image_files (frames : list (tensor3 fval)) :
  map cvtColor_BGR2GRAY (_to_numpy_image undef_cast frames) = map to_file frames.
Proof.
  unfold _to_numpy_image, map4, to_file. by rewrite !map_map.
Qed.

(** One turn of the loop, for a pair with defined frame counts. *)
Lemma pair_step_spec (st : seq_state) (p : frame_pair) :
  argsort_spec argsort ->
  is_Some (pair_counts p) ->
  exists ls st',
    pair_lists (ss_cache st) p = Some ls
    /\ pair_step st p = Some st'
    /\ ss_cache st' = ls_cache ls
    /\ length (fst (assemble ls)) = S (pair_intermediates p)
    /\ length (snd (assemble ls)) = S (pair_intermediates p)
    /\ idx st' = (idx st + S (pair_intermediates p))%nat
    /\ map fst (files st')
       = map fst (files st) ++ seq (idx st) (S (pair_intermediates p))
    /\ map snd (files st')
       = map snd (files st) ++ map to_file (fst (assemble ls))
    /\ timestamps_list st' = timestamps_list st ++ snd (assemble ls).
Proof.
  intros Hspec [Ns HN].
  destruct (pair_lists_spec (ss_cache st) p Ns HN)
    as [ls [fs [Hrun [Hs [Hf [Hl Hlen]]]]]].
  destruct (assemble_sorted_perm ls Hspec Hlen) as [_ [_ [Hlf Hlt]]].
  assert (Hcount : length (total_frames ls) = S (pair_intermediates p)).
  { unfold pair_intermediates. rewrite HN, Hf. simpl. by rewrite Hl. }
  unfold pair_step. rewrite Hrun. cbn [mbind option_bind].
  set (frames := _to_numpy_image undef_cast (fst (assemble ls))).
  destruct (write_frames_spec frames (idx st, files st)) as [H1 [H2 H3]].
  assert (Hfl : length frames = S (pair_intermediates p)).
  { unfold frames, _to_numpy_image, map4. rewrite !length_map. congruence. }
  cbn [fst snd] in H1, H2, H3.
  eexists ls, _. split; [reflexivity |]. split; [reflexivity |].
  cbn [ss_cache idx files timestamps_list].
  rewrite H1, H2, H3, Hfl.
  unfold frames. rewrite to_numpy_image_files.
  repeat split; congruence.
Qed.

Lemma run_pairs_spec (sequence : list frame_pair) (st : seq_state) :
  argsort_spec argsort ->
  sequence_defined sequence ->
  exists st' entries,
    run_pairs st sequence = Some st'
    /\ sequence_entries (ss_cache st) sequence = Some entries
    /\ length entries
       = (length sequence + sum_list (map pair_intermediates sequence))%nat
    /\ idx st' = (idx st + length entries)%nat
    /\ map fst (files st') = map fst (files st) ++ seq (idx st) (length entries)
    /\ map snd (files st')
       = map snd (files st) ++ map (fun e => to_file (snd e)) entries
    /\ timestamps_list st' = timestamps_list st ++ map fst entries.
Proof.
  intros Hspec Hdef. revert st.
  induction Hdef as [|p rest Hp Hrest IH]; intros st.
  - exists st, []. simpl. rewrite !app_nil_r. repeat split. lia.
  - destruct (pair_step_spec st p Hspec Hp)
      as [ls [st1 [Hls [Hstep [Hc [Hlf [Hlt [Hidx [Hfst [Hsnd Hts]]]]]]]]]].
    destruct (IH st1) as [st' [es [Hrun [Hes [Hlen [Hidx' [Hfst' [Hsnd' Hts']]]]]]]].
    exists st', (zip (snd (assemble ls)) (fst (assemble ls)) ++ es).
    cbn [run_pairs sequence_entries]. rewrite Hstep, Hls.
    cbn [mbind option_bind]. rewrite <- Hc, Hes. cbn [mbind option_bind].
    split; [exact Hrun |]. split; [reflexivity |].
    rewrite length_app, length_zip, Hlf, Hlt, Nat.min_id, Hlen.
    split; [simpl; lia |]. split; [lia |].
    rewrite !map_app.
    assert (E1 : map fst (zip (snd (assemble ls)) (fst (assemble ls)))
                 = snd (assemble ls))
      by (apply fst_zip; lia).
    assert (E2 : map (fun e => to_file (snd e))
                     (zip (snd (assemble ls)) (fst (assemble ls)))
                 = map to_file (fst (assemble ls))).
    { rewrite <- (map_map snd to_file). f_equal. apply snd_zip. lia. }
    rewrite E1, E2.
    split; [| split].
    + rewrite Hfst', Hfst, Hidx, <- app_assoc. f_equal.
      rewrite <- seq_app. f_equal. lia.
    + rewrite Hsnd', Hsnd. by rewrite <- app_assoc.
    + rewrite Hts', Hts. by rewrite <- app_assoc.
Qed.

Lemma upsample_sequence_ok (c : cache) (sequence : list frame_pair) :
  argsort_spec argsort ->
  sequence_defined sequence ->
  exists c' out,
    upsample_sequence c sequence = Some (c', out)
    /\ sequence_output_ok sequence out.
Proof.
  intros Hspec Hdef.
  destruct (run_pairs_spec sequence (mk_seq c 0 [] []) Hspec Hdef)
    as [st' [es [Hrun [Hes [Hlen [Hidx [Hfst [Hsnd Hts]]]]]]]].
  simpl in *. unfold upsample_sequence. rewrite Hrun. simpl.
  eexists _, _. split; [reflexivity |].
  assert (Hfl : length (files st') = length es).
  { rewrite <- (length_map fst), Hfst. by rewrite length_seq. }
  unfold sequence_output_ok, _write_timestamps. simpl.
  split; [congruence |]. split; [by rewrite Hfl |].
  split; [by rewrite Hts, length_map |].
  by exists c, es.
Qed.

(** C3 (as the code has it). Global index continuity: for every sequence of
    a run the number of frames written is the number of its pairs (one
    boundary frame each) plus the sum of the pairs' intermediate-frame
    counts; the indices in the file names are 0, 1, 2, ... in the order
    written, carried on from pair to pair and started again at 0 for the
    next sequence; the timestamp file has one line per written frame, line
    [k] being the timestamp of the frame in file [k]. *)
Theorem global_index_continuity (c : cache)
    (dirs : list (option (list frame_pair))) :
  argsort_spec argsort ->
  Forall sequence_defined (omap id dirs) ->
  exists c' outs,
    upsample c dirs = Some (c', outs)
    /\ Forall2
         (fun sequence out =>
            length (imgs out)
            = (length sequence + sum_list (map pair_intermediates sequence))%nat
            /\ map fst (imgs out) = seq 0 (length (imgs out))
            /\ length (timestamps_file out) = length (imgs out)
            /\ exists c0 entries,
                 sequence_entries c0 sequence = Some entries
                 /\ timestamps_file out = map fst entries
                 /\ map snd (imgs out) = map (fun e => to_file (snd e)) entries)
         (omap id dirs) outs.
Proof.
  intros Hspec. revert c.
  induction dirs as [|[sequence|] dirs IH]; intros c Hdef.
  - exists c, []. split; [reflexivity | constructor].
  - change (omap id (Some sequence :: dirs)) with (sequence :: omap id dirs) in *.
    apply Forall_cons in Hdef as [Hs Hdef].
    destruct (upsample_sequence_ok c sequence Hspec Hs) as [c1 [out [Hrun Hok]]].
    destruct (IH c1 Hdef) as [c' [outs [Hrest Hall]]].
    exists c', (out :: outs). split.
    + cbn [upsample]. rewrite Hrun. cbn [mbind option_bind fst snd].
      rewrite Hrest. reflexivity.
    + constructor; [exact Hok | exact Hall].
  - change (omap id (None :: dirs)) with (omap id dirs) in *.
    cbn [upsample]. by apply IH.
Qed.


(** *** Timestamps across the pairs of a sequence *)

(** The pairs are in temporal order from [lo] on: every pair has well-formed
    times and starts no earlier than the pair before it ended. *)
Fixpoint in_time_order (lo : Q) (sequence : list frame_pair) : Prop :=
  match sequence with
  | [] => True
  | p :: rest =>
      lo <= fst (snd p) /\ well_formed_times (snd p)
      /\ in_time_order (snd (snd p)) rest
  end.

(** The end time of the last pair ([lo] when there is none). *)
Fixpoint end_time (lo : Q) (sequence : list frame_pair) : Q :=
  match sequence with
  | [] => lo
  | p :: rest => end_time (snd (snd p)) rest
  end.

Lemma end_time_ge (lo : Q) (sequence : list frame_pair) :
  in_time_order lo sequence -> lo <= end_time lo sequence.
Proof.
  revert lo. induction sequence as [|p rest IH]; intros lo; simpl; [lra |].
  intros [H0 [[_ [_ [H1 _]]] Hrest]]. apply IH in Hrest. lra.
Qed.

Lemma run_pairs_stamps (sequence : list frame_pair) (lo : Q) (st : seq_state) :
  argsort_spec argsort ->
  sequence_defined sequence ->
  in_time_order lo sequence ->
  exists st' ts,
    run_pairs st sequence = Some st'
    /\ timestamps_list st' = timestamps_list st ++ ts
    /\ StronglySorted Qle ts
    /\ Forall (fun x => lo <= x /\ x <= end_time lo sequence) ts
    /\ match sequence with
       | [] => ts = []
       | p :: _ => exists x0 ts', ts = x0 :: ts' /\ x0 == fst (snd p)
       end.
Proof.
  intros Hspec Hdef. revert lo st.
  induction Hdef as [|p rest [Ns HN] Hdef IH]; intros lo st Hord.
  - exists st, []. simpl. rewrite app_nil_r. repeat split; constructor.
  - destruct Hord as [Hlo [Hwf Hord]].
    destruct (pair_step_spec st p Hspec (ex_intro _ Ns HN))
      as [ls [st1 [Hls [Hstep [_ [_ [_ [_ [_ [_ Hts]]]]]]]]]].
    destruct (pair_lists_spec (ss_cache st) p Ns HN)
      as [ls' [fs [Hls' [Hs [_ [_ Hlen]]]]]].
    rewrite Hls in Hls'. apply (inj Some) in Hls'. subst ls'.
    destruct (assemble_sorted_perm ls Hspec Hlen) as [Hsorted1 _].
    pose proof (assemble_stamps_perm ls Hspec) as Hperm.
    pose proof Hwf as [[H0 _] [[H1 _] [Ht _]]].
    pose proof (new_stamps_inside _ _ Ns H0 H1 Ht (pair_counts_range p Ns HN))
      as Hin0.
    assert (Hin : Forall (fun x => fst (snd p) <= x /\ x <= snd (snd p))
                         (snd (assemble ls))).
    { rewrite Hperm, Hs. constructor; [lra | exact Hin0]. }
    pose proof (new_stamps_ge _ _ Ns H0 (Qlt_le_weak _ _ Ht)) as Hge.
    destruct (sorted_head_least argsort _ _ Hspec Hge) as [i [r [Ei Hi]]].
    destruct (IH (snd (snd p)) st1 Hord)
      as [st' [ts [Hrun [Hts' [Hsorted [Hrange _]]]]]].
    pose proof (end_time_ge _ _ Hord) as Hend.
    exists st', (snd (assemble ls) ++ ts).
    cbn [run_pairs]. rewrite Hstep. cbn [mbind option_bind].
    split; [exact Hrun |].
    split; [by rewrite Hts', Hts, <- app_assoc |].
    split.
    { apply StronglySorted_app_2; [| exact Hsorted1 | exact Hsorted].
      intros x1 x2 H1' H2'.
      rewrite Forall_forall in Hin, Hrange.
      destruct (Hin _ H1'), (Hrange _ H2'). lra. }
    split.
    { apply Forall_app. split.
      - eapply Forall_impl; [exact Hin |]. simpl. intros x [? ?].
        split; lra.
      - eapply Forall_impl; [exact Hrange |]. simpl. intros x [? ?].
        split; lra. }
    unfold assemble. cbn [snd]. rewrite Hs, Ei. cbn [take_at map app].
    by eexists _, _.
Qed.

(** X5. Timestamps of a whole sequence in double precision: when the pairs
    are in temporal order (each with well-formed times, each starting no
    earlier than the one before ended) and every pair has defined frame
    counts, the timestamp file is in non-decreasing order, starts with a
    timestamp equal to the first pair's [t0], and no line is later than the
    last pair's [t1]. *)
Theorem sequence_timestamps_ascending (c : cache) (p : frame_pair)
    (rest : list frame_pair) :
  argsort_spec argsort ->
  sequence_defined (p :: rest) ->
  in_time_order (fst (snd p)) (p :: rest) ->
  exists c' out,
    upsample_sequence c (p :: rest) = Some (c', out)
    /\ StronglySorted Qle (timestamps_file out)
    /\ (exists x0 ts', timestamps_file out = x0 :: ts' /\ x0 == fst (snd p))
    /\ Forall (fun x => fst (snd p) <= x
                        /\ x <= end_time (fst (snd p)) (p :: rest))
              (timestamps_file out).
Proof.
  intros Hspec Hdef Hord.
  destruct (run_pairs_stamps (p :: rest) (fst (snd p)) (mk_seq c 0 [] [])
              Hspec Hdef Hord)
    as [st' [ts [Hrun [Hts [Hsorted [Hrange Hhd]]]]]].
  unfold upsample_sequence. rewrite Hrun. cbn [mbind option_bind].
  eexists _, _. split; [reflexivity |].
  unfold _write_timestamps. cbn [timestamps_file].
  rewrite Hts. cbn [timestamps_list app].
  split; [exact Hsorted |]. split; [exact Hhd | exact Hrange].
Qed.

(** *** The cache across pairs and sequences *)

(** All frames of the sequence have [height] rows and [width] columns. *)
Definition one_resolution (height width : nat) (sequence : list frame_pair)
  : Prop :=
  Forall (fun p => shape_hw [fst (fst p)] = (height, width)) sequence.

(** The cache once the module for this resolution has been asked for. *)
Definition warm (height width : nat) (c : cache) : cache :=
  snd (get_flowBackWarp_module width height c).

Lemma pair_lists_cache (c : cache) (p : frame_pair) (Ns : list Z) :
  pair_counts p = Some Ns ->
  exists st,
    pair_lists c p = Some st
    /\ ls_cache st
       = cache_after [fst (fst p)] (sum_list (map n_intermediate Ns)) c.
Proof.
  intros HN. unfold pair_counts in HN.
  pose proof (flow_mag_max_int_length _ _ _ (pair_flows_length p) HN) as HB.
  unfold pair_lists, _upsample_adaptive. rewrite HN. cbn [mbind option_bind].
  eexists. split; [reflexivity |].
  rewrite outer_loop_cache. rewrite snd_zip by (rewrite length_seq; lia).
  reflexivity.
Qed.

Lemma cache_after_shape (I0 : tensor4 Q) (height width n : nat) (c : cache) :
  shape_hw I0 = (height, width) ->
  cache_after I0 n c
  = match n with O => c | S _ => warm height width c end.
Proof. intros E. unfold cache_after, warm. by rewrite E. Qed.

Lemma warm_twice (height width : nat) (c : cache) :
  warm height width (warm height width c) = warm height width c.
Proof. apply get_twice. Qed.

Lemma run_pairs_cache (height width : nat) (sequence : list frame_pair)
    (st : seq_state) :
  argsort_spec argsort ->
  sequence_defined sequence ->
  one_resolution height width sequence ->
  exists st',
    run_pairs st sequence = Some st'
    /\ (ss_cache st' = ss_cache st
        \/ ss_cache st' = warm height width (ss_cache st)).
Proof.
  intros Hspec Hdef. revert st.
  induction Hdef as [|p rest Hp Hdef IH]; intros st Hres.
  - exists st. split; [reflexivity | by left].
  - apply Forall_cons in Hres as [Hshape Hres].
    destruct (pair_step_spec st p Hspec Hp)
      as [ls [st1 [Hls [Hstep [Hc _]]]]].
    destruct Hp as [Ns HN].
    destruct (pair_lists_cache (ss_cache st) p Ns HN) as [ls' [Hls' Hcache]].
    rewrite Hls in Hls'. apply (inj Some) in Hls'. subst ls'.
    destruct (IH st1 Hres) as [st' [Hrun Hst']].
    exists st'. cbn [run_pairs]. rewrite Hstep. cbn [mbind option_bind].
    split; [exact Hrun |].
    rewrite Hc, Hcache in Hst'.
    rewrite (cache_after_shape _ height width _ _ Hshape) in Hst'.
    destruct (sum_list (map n_intermediate Ns)).
    + exact Hst'.
    + right. destruct Hst' as [-> | ->]; [done | apply warm_twice].
Qed.

(** X6. One warp module per resolution: in a run over any number of
    sequences whose frames all have the same height and width, the cache at
    the end is the cache at the start or that cache after one request for
    this resolution; at most one module is constructed, and none when the
    cache already holds one for the resolution. *)
Theorem one_module_per_resolution (height width : nat) (c : cache)
    (dirs : list (option (list frame_pair))) :
  argsort_spec argsort ->
  Forall sequence_defined (omap id dirs) ->
  Forall (one_resolution height width) (omap id dirs) ->
  exists c' outs,
    upsample c dirs = Some (c', outs)
    /\ length outs = length (omap id dirs)
    /\ (c' = c \/ c' = warm height width c)
    /\ (constructed c' <= S (constructed c))%nat
    /\ (is_Some (flowBackWarp_dict c !! (width, height)) -> c' = c).
Proof.
  intros Hspec Hdef Hres.
  assert (Hmain : exists c' outs,
             upsample c dirs = Some (c', outs)
             /\ length outs = length (omap id dirs)
             /\ (c' = c \/ c' = warm height width c)).
  { revert c Hdef Hres.
    induction dirs as [|[sequence|] dirs IH]; intros c Hdef Hres.
    - exists c, []. split; [reflexivity |]. split; [reflexivity | by left].
    - change (omap id (Some sequence :: dirs))
        with (sequence :: omap id dirs) in *.
      apply Forall_cons in Hdef as [Hs Hdef].
      apply Forall_cons in Hres as [Hr Hres].
      destruct (run_pairs_cache height width sequence (mk_seq c 0 [] [])
                  Hspec Hs Hr) as [st' [Hrun Hst']].
      cbn [ss_cache] in Hst'.
      destruct (IH (ss_cache st') Hdef Hres) as [c' [outs [Hrest [Hlen Hc']]]].
      exists c', (mk_output (files st')
                            (_write_timestamps (timestamps_list st')) :: outs).
      split.
      { cbn [upsample]. unfold upsample_sequence. rewrite Hrun.
        cbn [mbind option_bind fst snd]. rewrite Hrest. reflexivity. }
      split; [simpl; by rewrite Hlen |].
      destruct Hst' as [E | E]; rewrite E in Hc'; [exact Hc' |].
      right. destruct Hc' as [-> | ->]; [done | apply warm_twice].
    - change (omap id (None :: dirs)) with (omap id dirs) in *.
      cbn [upsample]. by apply IH. }
  destruct Hmain as [c' [outs [Hrun [Hlen Hc']]]].
  exists c', outs. split; [exact Hrun |]. split; [exact Hlen |].
  split; [exact Hc' |].
  split.
  - destruct Hc' as [-> | ->]; [lia |].
    unfold warm, get_flowBackWarp_module.
    destruct (flowBackWarp_dict c !! (width, height)); simpl; lia.
  - intros [m Hm]. destruct Hc' as [-> | ->]; [done |].
    unfold warm. by rewrite (get_hit _ _ _ _ Hm).
Qed.

(** *** The files of a sequence *)

(** The names of the image files of a sequence, in the order written
    (line 132: the index goes through ["%08d.png" % idx]). *)
Definition written_names (out : output) : list string :=
  map (fun f => FileName.img_name (fst f)) (imgs out).

(** X12. No frame of a sequence is written over another: the names of the
    files [_write_img] writes are those of the indices 0, 1, 2, ... up to
    the number of frames, in this order, and they are pairwise different,
    also when an index has more than 8 digits. *)
Theorem written_names_distinct (c : cache) (sequence : list frame_pair) :
  argsort_spec argsort ->
  sequence_defined sequence ->
  exists c' out,
    upsample_sequence c sequence = Some (c', out)
    /\ written_names out
       = map FileName.img_name
           (seq 0 (length sequence
                   + sum_list (map pair_intermediates sequence)))
    /\ NoDup (written_names out)
    /\ map FileName.name_index (written_names out)
       = map Some (seq 0 (length (imgs out))).
Proof.
  intros Hspec Hdef.
  destruct (upsample_sequence_ok c sequence Hspec Hdef)
    as [c' [out [Hrun [Hlen [Hidx _]]]]].
  exists c', out. split; [exact Hrun |].
  assert (Hnames : written_names out
                   = map FileName.img_name (seq 0 (length (imgs out)))).
  { unfold written_names. rewrite <- Hidx. by rewrite map_map. }
  split; [by rewrite Hnames, Hlen |].
  split.
  - rewrite Hnames. apply NoDup_fmap_2; [| apply NoDup_seq].
    intros i j. apply FileName.img_name_inj.
  - rewrite Hnames, map_map. apply map_ext. intros k.
    apply FileName.name_index_img_name.
Qed.

End Upsampler.

End Assembler.

(** ** A small instance, and the theorems at concrete inputs *)

Module Examples.
Import Float64 Coeff WarpCache Scheduler Image Assembler.
Local Open Scope Q_scope.

(** A square root that is exact on the squares of integers. *)
Definition isqrt (q : Q) : Q := inject_Z (Z.sqrt (Qfloor q)).

(** The sigmoid of a zero logit. *)
Definition half (_ : Q) : Q := 1 # 2.

Definition zero22 : tensor2 Q := [[0; 0]; [0; 0]].

(** A flow network whose forward flow moves the top-left pixel by [u] and
    nothing else. *)
Definition flow_const (u : Q) (x : tensor4 Q) : tensor4 Q :=
  map (fun _ => [[[u; 0]; [0; 0]]; zero22; zero22; zero22]) x.

(** A refinement network without residual, and a warp that leaves the image
    where it is. *)
Definition intrp_zero (x : tensor4 Q) : tensor4 Q :=
  map (fun _ => replicate 5 zero22) x.
Definition warp_id (_ : backWarp) (img _ : tensor4 Q) : tensor4 Q := img.

Definition negmean3 : tensor3 Q :=
  [[[- (429 # 1000)]]; [[- (431 # 1000)]]; [[- (397 # 1000)]]].
Definition std3 : tensor3 Q := [[[1]]; [[1]]; [[1]]].

Definition undef0 (_ : fval) : Z := 0%Z.
Definition first_channel (img : tensor3 Z) : tensor2 Z :=
  map (map (fun px => nth 0 px 0%Z)) img.

(** A 3-channel 2x2 image of one grey level. *)
Definition grey (a : Q) : tensor3 Q :=
  [[[a; a]; [a; a]]; [[a; a]; [a; a]]; [[a; a]; [a; a]]].

(** A pair from time 0 to time 1. *)
Definition pair01 : frame_pair := ((grey (1 # 10), grey (9 # 10)), (0, 1)).

(** Two pairs whose times are large for their distance: four units apart
    at [10^16], where neighbouring doubles are two units apart, and
    [2^-21] s apart at 1.6e9 s (a date in 2020 as Unix time), where they
    are [2^-22] s apart. *)
Definition pair_1e16 : frame_pair :=
  ((grey (1 # 10), grey (9 # 10)),
   (10000000000000000, 10000000000000004)).


(** The two 2x2 flow fields [flow_const 3] returns for one sample. *)
Definition f01 : tensor3 Q := [[[3; 0]; [0; 0]]; zero22].
Definition f10 : tensor3 Q := [zero22; zero22].

(** [upsample_sequence] with this instance and motion [u]. *)
Definition run_sequence (u : Q) (sort : list Q -> list nat)
  : cache -> list frame_pair -> option (cache * output) :=
  upsample_sequence isqrt half (flow_const u) intrp_zero warp_id negmean3 std3
                    sort undef0 first_channel.

(** [_move_to_device] on a machine without CUDA: modules are numbers,
    tensors are numbers, a device is [true] for the CPU, and a move to
    another device raises. *)
Definition to_cpu_only {A : Type} (x : A) (device : bool) (_ : option unit)
  : option A :=
  if device then Some x else None.

Example run_two_pairs :
  (fun r => map fst (imgs (snd r)))
    <$> run_sequence 3 argsort_stable empty_cache [pair01; pair01]
  = Some [0; 1; 2; 3; 4; 5]%nat
  /\ match run_sequence 3 argsort_stable empty_cache [pair01; pair01] with
     | Some r =>
         Forall2 Qeq (timestamps_file (snd r))
                 [0; fl (1 # 3); fl (2 # 3); 0; fl (1 # 3); fl (2 # 3)]
     | None => False
     end.
Proof. split; [by vm_compute |]. vm_compute. repeat constructor. Qed.

(** The rounding on some rationals: the doubles nearest to 1/3 and to 0.1,
    the two ties of the text above, and the smallest subnormal. *)
Example rounding :
  fl (1 # 3) == 6004799503160661 # 18014398509481984
  /\ fl (1 # 10) == 3602879701896397 # 36028797018963968
  /\ fl (10000000000000001) == 10000000000000000
  /\ fl (10000000000000003) == 10000000000000004
  /\ fl (pow2 (-1074)) == pow2 (-1074)
  /\ fl (pow2 (-1075)) == 0
  /\ fl (3 * pow2 (-1075)) == 2 * pow2 (-1074).
Proof. by vm_compute. Qed.

(** The two flow fields [flow_fields] returns for one sample. *)
Definition u01 : tensor2 Q := [[1; 0]; [0; 2]].
Definition v10 : tensor2 Q := [[0; 0]; [0; 3]].

Lemma fields_magnitude : max_magnitude isqrt [u01; zero22] [zero22; v10] 3.
Proof.
  apply max_magnitude_2x2.
  - repeat constructor; by vm_compute.
  - do 7 apply Exists_cons_tl. apply Exists_cons_hd. by vm_compute.
Qed.

Lemma count_law_witness :
  exists st,
    _upsample_adaptive isqrt half intrp_zero warp_id negmean3 empty_cache
      [grey (1 # 10)] [grey (9 # 10)] 0 1 [[u01; zero22]] [[zero22; v10]]
      [TP negmean3 std3 (grey (1 # 10))] [0]
    = Some st
    /\ length (total_frames st) = 3%nat.
Proof.
  destruct (count_law isqrt half intrp_zero warp_id negmean3 empty_cache
              [grey (1 # 10)] [grey (9 # 10)] 0 1 u01 zero22 zero22 v10
              (TP negmean3 std3 (grey (1 # 10))) 3 fields_magnitude)
    as [st [fs [Hrun [_ [_ [_ [Hlen _]]]]]]].
  exists st. split; [exact Hrun |].
  by destruct (Hlen ltac:(by vm_compute)) as [_ ->].
Defined.

(** A motion of 3e9 pixels: the count law asks for 3e9 - 1 intermediate
    frames, the scheduler returns the boundary frame alone. *)
Lemma count_law_counterexample :
  max_magnitude isqrt [[[3000000000; 0]; [0; 0]]; zero22] [zero22; zero22]
                3000000000
  /\ (fun st => length (total_frames st))
       <$> _upsample_adaptive isqrt half intrp_zero warp_id negmean3
             empty_cache [grey (1 # 10)] [grey (9 # 10)] 0 1
             [[[[3000000000; 0]; [0; 0]]; zero22]] [[zero22; zero22]]
             [TP negmean3 std3 (grey (1 # 10))] [0]
     = Some 1%nat
  /\ (Z.max (Qceiling 3000000000 - 1) 0 + 1 = 3000000000)%Z.
Proof.
  split; [| by vm_compute].
  apply max_magnitude_2x2.
  - repeat constructor; by vm_compute.
  - apply Exists_cons_hd. by vm_compute.
Qed.

Lemma pair01_counts : pair_counts isqrt (flow_const 3) pair01 = Some [3%Z].
Proof. by vm_compute. Qed.

Lemma times01_well_formed : well_formed_times (snd pair01).
Proof. repeat split; by vm_compute. Qed.

Lemma timestamp_ordering_witness :
  exists st,
    pair_lists isqrt half (flow_const 3) intrp_zero warp_id negmean3 std3
               empty_cache pair01 = Some st
    /\ Forall (fun x => 0 <= x /\ x <= 1) (snd (assemble argsort_stable st))
    /\ StronglySorted Qle (snd (assemble argsort_stable st)).
Proof.
  destruct (timestamp_ordering isqrt half (flow_const 3) intrp_zero warp_id
              negmean3 std3 argsort_stable empty_cache pair01 3
              argsort_stable_spec times01_well_formed pair01_counts)
    as [st [Hrun [_ [_ [_ [_ [_ [Hin Hsorted]]]]]]]].
  exists st. split; [exact Hrun |]. split; [exact Hin | exact Hsorted].
Defined.

Lemma pair_1e16_counts :
  pair_counts isqrt (flow_const 4) pair_1e16 = Some [4%Z].
Proof. by vm_compute. Qed.

(** Between [10^16] and [10^16 + 4] with four steps: the exact timestamps
    [t0 + 1] and [t0 + 3] are half way between doubles and are rounded to
    [t0] and to [t1].  The pair is well formed, the first intermediate
    timestamp equals [t0] and the last one equals [t1]: the timestamps are
    not strictly increasing and not all below [t1]. *)
Lemma timestamp_ordering_counterexample :
  well_formed_times (snd pair_1e16)
  /\ match pair_lists isqrt half (flow_const 4) intrp_zero warp_id negmean3
                      std3 empty_cache pair_1e16 with
     | Some st =>
         Forall2 Qeq (timestamps st)
                 [10000000000000000; 10000000000000000;
                  10000000000000002; 10000000000000004]
         /\ Forall2 Qeq (snd (assemble argsort_stable st))
                    [10000000000000000; 10000000000000000;
                     10000000000000002; 10000000000000004]
     | None => False
     end.
Proof.
  split; [repeat split; by vm_compute |].
  vm_compute. split; repeat constructor.
Qed.




Lemma two_sequences_defined :
  Forall (sequence_defined isqrt (flow_const 3))
         (omap id [Some [pair01; pair01]; None; Some [pair01]]).
Proof.
  repeat constructor; exists [3%Z]; exact pair01_counts.
Qed.

Lemma global_index_continuity_witness :
  exists c' outs,
    upsample isqrt half (flow_const 3) intrp_zero warp_id negmean3 std3
             argsort_stable undef0 first_channel empty_cache
             [Some [pair01; pair01]; None; Some [pair01]]
    = Some (c', outs)
    /\ length outs = 2%nat.
Proof.
  destruct (global_index_continuity isqrt half (flow_const 3) intrp_zero
              warp_id negmean3 std3 argsort_stable undef0 first_channel
              empty_cache [Some [pair01; pair01]; None; Some [pair01]]
              argsort_stable_spec two_sequences_defined)
    as [c' [outs [Hrun Hall]]].
  exists c', outs. split; [exact Hrun |].
  apply Forall2_length in Hall. by rewrite <- Hall.
Defined.

(** Two pairs with two intermediate frames each: six frames are written,
    not one boundary frame plus the four intermediate ones. *)
Lemma frame_count_counterexample :
  (fun r => length (imgs (snd r)))
    <$> run_sequence 3 argsort_stable empty_cache [pair01; pair01]
  = Some 6%nat
  /\ (1 + sum_list (map (pair_intermediates isqrt (flow_const 3))
                        [pair01; pair01]))%nat = 5%nat.
Proof. by vm_compute. Qed.

Lemma scheduler_cache_effect_witness :
  exists st,
    _upsample_adaptive isqrt half intrp_zero warp_id negmean3 empty_cache
      [grey (1 # 10)] [grey (9 # 10)] 0 1 [f01] [f10] [] []
    = Some st
    /\ (constructed (ls_cache st) <= 1)%nat.
Proof.
  destruct (scheduler_cache_effect isqrt half intrp_zero warp_id negmean3
              empty_cache [grey (1 # 10)] [grey (9 # 10)] 0 1 [f01] [f10]
              [] [] [3%Z])
    as [st [Hrun [_ [_ Hle]]]].
  - by vm_compute.
  - reflexivity.
  - exists st. split; [exact Hrun | exact Hle].
Defined.

Example move_list_to_cpu :
  Device._move_to_device nat nat string bool unit false id
    to_cpu_only to_cpu_only
    (Device.PList _ _ _ [Device.PTensor _ _ _ 1%nat;
                         Device.POther _ _ _ "time_pair"%string;
                         Device.PList _ _ _ [Device.PModule _ _ _ 2%nat]])
    true None
  = ([Device.TypeNotSupported _ _ _ (Device.POther _ _ _ "time_pair"%string)],
     Some (Device.PList _ _ _
             [Device.PTensor _ _ _ 1%nat;
              Device.POther _ _ _ "time_pair"%string;
              Device.PList _ _ _ [Device.PModule _ _ _ 2%nat]])).
Proof. reflexivity. Qed.

Example move_other_to_missing_cuda :
  Device._move_to_device nat nat string bool unit false id
    to_cpu_only to_cpu_only (Device.POther _ _ _ "time_pair"%string) false None
  = ([Device.CudaNotAvailable _ _ _;
      Device.TypeNotSupported _ _ _ (Device.POther _ _ _ "time_pair"%string)],
     Some (Device.POther _ _ _ "time_pair"%string)).
Proof. reflexivity. Qed.

Example move_tensor_to_missing_cuda :
  Device._move_to_device nat nat string bool unit false id
    to_cpu_only to_cpu_only (Device.PTensor _ _ _ 1%nat) false None
  = ([Device.CudaNotAvailable _ _ _], None).
Proof. reflexivity. Qed.

Lemma to_numpy_image_layout_witness :
  entry4 (_to_numpy_image undef0
            [[[[Fin (1 # 10); Fin (2 # 10)]]; [[Fin (3 # 10); Fin (4 # 10)]];
              [[Fin (5 # 10); Fin 2]]]]) 0 0 1 2
  = Some 255%Z.
Proof.
  rewrite (to_numpy_image_layout undef0 1 2).
  - reflexivity.
  - repeat constructor.
Defined.

Lemma to_uint8_pixel_monotone_witness :
  (to_uint8_pixel undef0 (Fin (2 # 10))
   <= to_uint8_pixel undef0 (Fin (7 # 10)))%Z.
Proof.
  apply (to_uint8_pixel_monotone undef0 (2 # 10) (7 # 10)). by vm_compute.
Defined.

(** The pair that follows [pair01] in time. *)
Definition pair12 : frame_pair := ((grey (9 # 10), grey (1 # 10)), (1, 2)).

Lemma pair12_counts : pair_counts isqrt (flow_const 3) pair12 = Some [3%Z].
Proof. by vm_compute. Qed.

Lemma sequence_timestamps_ascending_witness :
  exists c' out,
    run_sequence 3 argsort_stable empty_cache [pair01; pair12]
    = Some (c', out)
    /\ StronglySorted Qle (timestamps_file out)
    /\ Forall (fun x => 0 <= x /\ x <= 2) (timestamps_file out).
Proof.
  destruct (sequence_timestamps_ascending isqrt half (flow_const 3)
              intrp_zero warp_id negmean3 std3 argsort_stable undef0
              first_channel empty_cache pair01 [pair12] argsort_stable_spec)
    as [c' [out [Hrun [Hsorted [_ Hin]]]]].
  - constructor; [exists [3%Z]; exact pair01_counts |].
    constructor; [exists [3%Z]; exact pair12_counts | constructor].
  - cbn [in_time_order]. split; [by vm_compute |].
    split; [exact times01_well_formed |].
    split; [by vm_compute |].
    split; [repeat split; by vm_compute | exact I].
  - exists c', out. split; [exact Hrun |]. split; [exact Hsorted | exact Hin].
Defined.

Lemma two_sequences_one_resolution :
  Forall (one_resolution 2 2)
         (omap id [Some [pair01; pair01]; None; Some [pair01]]).
Proof. repeat constructor. Qed.

Lemma one_module_per_resolution_witness :
  exists c' outs,
    upsample isqrt half (flow_const 3) intrp_zero warp_id negmean3 std3
             argsort_stable undef0 first_channel empty_cache
             [Some [pair01; pair01]; None; Some [pair01]]
    = Some (c', outs)
    /\ (constructed c' <= 1)%nat.
Proof.
  destruct (one_module_per_resolution isqrt half (flow_const 3) intrp_zero
              warp_id negmean3 std3 argsort_stable undef0 first_channel
              2 2 empty_cache [Some [pair01; pair01]; None; Some [pair01]]
              argsort_stable_spec two_sequences_defined
              two_sequences_one_resolution)
    as [c' [outs [Hrun [_ [_ [Hle _]]]]]].
  exists c', outs. split; [exact Hrun | exact Hle].
Defined.

Lemma written_names_distinct_witness :
  exists c' out,
    run_sequence 3 argsort_stable empty_cache [pair01; pair12]
    = Some (c', out)
    /\ written_names out
       = ["00000000.png"; "00000001.png"; "00000002.png";
          "00000003.png"; "00000004.png"; "00000005.png"]%string
    /\ NoDup (written_names out).
Proof.
  destruct (written_names_distinct isqrt half (flow_const 3) intrp_zero
              warp_id negmean3 std3 argsort_stable undef0 first_channel
              empty_cache [pair01; pair12] argsort_stable_spec)
    as [c' [out [Hrun [Hnames [Hnodup _]]]]].
  - constructor; [exists [3%Z]; exact pair01_counts |].
    constructor; [exists [3%Z]; exact pair12_counts | constructor].
  - exists c', out. split; [exact Hrun |]. split; [| exact Hnodup].
    rewrite Hnames. by vm_compute.
Defined.

Lemma linear_motion_flows_witness :
  exists z,
    entry4 (F_t_0 (1 # 3) [f01] (map4 Qopp [f01])) 0 0 0 0 = Some z
    /\ z == - (1 # 3) * 3.
Proof.
  destruct (proj1 (linear_motion_flows (1 # 3) [f01] 0 0 0 0) _ eq_refl)
    as [x [Hx Hz]].
  eexists. split; [reflexivity |].
  injection Hx as <-. exact Hz.
Defined.

Lemma frame_count_of_directions_witness :
  flow_mag_max_int isqrt [f10] [f01] = Some [3%Z]
  /\ [3%Z] = zip_with (fun x y => Z.max (Qceiling x) (Qceiling y)) [3] [0].
Proof.
  destruct (frame_count_of_directions isqrt [f01] [f10]) as [Hswap Hmax].
  split.
  - rewrite Hswap. by vm_compute.
  - apply (Hmax [3] [0] [3%Z]); [by vm_compute | by vm_compute | by vm_compute |].
    repeat constructor; by vm_compute.
Defined.

Lemma move_to_device_structure_witness :
  Device.moved nat nat string bool unit to_cpu_only to_cpu_only true None
    (Device.PList _ _ _ [Device.PTensor _ _ _ 1%nat;
                         Device.POther _ _ _ "time_pair"%string])
    (Device.PList _ _ _ [Device.PTensor _ _ _ 1%nat;
                         Device.POther _ _ _ "time_pair"%string]).
Proof.
  apply (proj1 (Device.move_to_device_structure nat nat string bool unit
                  false id to_cpu_only to_cpu_only true None
                  (Device.PList _ _ _
                     [Device.PTensor _ _ _ 1%nat;
                      Device.POther _ _ _ "time_pair"%string]))
               [Device.TypeNotSupported _ _ _
                  (Device.POther _ _ _ "time_pair"%string)]).
  reflexivity.
Defined.

(** *** The rounding model and the machine's doubles

    Rocq's primitive floats are the binary64 numbers of the processor.  The
    timestamps of several pairs, computed by the machine as line 196 does
    and by [stamp] with [fl], agree. *)

Module Machine.
Import PrimFloat.

(** The rational value of a finite machine double. *)
Definition of_float (f : float) : option Q :=
  match FloatOps.Prim2SF f with
  | SpecFloat.S754_zero _ => Some 0
  | SpecFloat.S754_finite s m e =>
      Some ((if s then -1 else 1) * inject_Z (Z.pos m) * pow2 e)
  | _ => None
  end.

(** [time0 + t * (time1 - time0)] with [t = float(i) / N], on the machine. *)
Definition machine_stamp (time0 time1 : float) (N : Z) (i : nat) : float :=
  let t := (of_uint63 (Uint63Axioms.of_Z (Z.of_nat i))
            / of_uint63 (Uint63Axioms.of_Z N))%float in
  (time0 + t * (time1 - time0))%float.

Definition same_stamp (time0 time1 : float) (N : Z) (i : nat) : bool :=
  match of_float time0, of_float time1,
        of_float (machine_stamp time0 time1 N i) with
  | Some q0, Some q1, Some s => Qeq_bool s (stamp q0 q1 N i)
  | _, _, _ => false
  end.

Definition same_stamps (case : float * float * Z) : bool :=
  forallb (same_stamp (fst (fst case)) (snd (fst case)) (snd case))
          (range 1 (snd case)).

#[warning="-inexact-float"]
Example machine_agrees :
  forallb same_stamps
    [(0, 1, 3%Z); (1e16, 1e16 + 4, 4%Z);
     (1600000000, 1600000000 + 0x1p-21, 4%Z);
     (0.1, 0.7, 7%Z); (-0.3, 1e-310, 5%Z); (1e-320, 3e-320, 3%Z);
     (1600000000.04, 1600000000.08, 25%Z)]%float
  = true.
Proof. by vm_compute. Qed.

Example machine_ties :
  (of_float (machine_stamp 1e16 (1e16 + 4) 4 1) = of_float 1e16
   /\ of_float (machine_stamp 1e16 (1e16 + 4) 4 3) = of_float (1e16 + 4))%float.
Proof. by vm_compute. Qed.

End Machine.

End Examples.
